(** * Copy-on-write state updates of [react/features/base/redux/functions.js]

    A shallow embedding of the four exported functions [assign], [equals],
    [set], [toState] and of the internal [_set].

    JavaScript values are references or primitives; objects live in a heap
    and are addressed by location, so that "the same reference" is equality
    of locations and "an allocation" is growth of the heap.  An object is a
    plain object or an array; its prototype is [Object.prototype],
    respectively [Array.prototype]: a property read sees the own properties
    first and then the members the prototype chain provides.  Every own
    property of a plain object is an enumerable, configurable data
    property. *)

From Stdlib Require Import ZArith DecimalNat DecimalString.
From stdpp Require Import base list strings.

Local Open Scope string_scope.
Local Open Scope list_scope.
Local Open Scope nat_scope.

(** ** Values *)

Definition loc := nat.
Definition fid := nat.

(** Numbers: the not-a-number value and the finite numbers, the latter
    represented by integers (the two zeros, which [===] does not tell
    apart, are one). *)
Inductive number :=
| NaN
| Finite (z : Z).

(** The objects the language provides and every object inherits from: the
    two prototypes, and the function found under a name on each. *)
Inductive intrinsic :=
| ObjectPrototype
| ArrayPrototype
| ObjectMethod (name : string)
| ArrayMethod (name : string).

Inductive value :=
| VUndefined
| VNull
| VBool (b : bool)
| VNum (n : number)
| VStr (s : string)
| VObj (l : loc)
| VFun (f : fid)
| VIntrinsic (i : intrinsic).

#[global] Instance number_eq_dec : EqDecision number.
Proof. solve_decision. Defined.

#[global] Instance intrinsic_eq_dec : EqDecision intrinsic.
Proof. solve_decision. Defined.

#[global] Instance value_eq_dec : EqDecision value.
Proof. solve_decision. Defined.

Inductive jstype :=
| TUndefined | TObject | TBoolean | TNumber | TString | TFunction.

#[global] Instance jstype_eq_dec : EqDecision jstype.
Proof. solve_decision. Defined.

(** [typeof v] *)
Definition typeof (v : value) : jstype :=
  match v with
  | VUndefined => TUndefined
  | VNull => TObject
  | VBool _ => TBoolean
  | VNum _ => TNumber
  | VStr _ => TString
  | VObj _ => TObject
  | VFun _ => TFunction
  | VIntrinsic (ObjectPrototype | ArrayPrototype) => TObject
  | VIntrinsic (ObjectMethod _ | ArrayMethod _) => TFunction
  end.

(** [a === b]: identity of references and of primitives, except that
    [NaN] is identical to nothing. *)
Definition strict_eq (a b : value) : bool :=
  match a, b with
  | VNum NaN, _ | _, VNum NaN => false
  | _, _ => bool_decide (a = b)
  end.

(** [a !== b] *)
Definition strict_neq (a b : value) : bool := negb (strict_eq a b).

(** The condition of [if (v)]. *)
Definition truthy (v : value) : bool :=
  match v with
  | VUndefined | VNull => false
  | VBool b => b
  | VNum NaN => false
  | VNum (Finite z) => negb (z =? 0)%Z
  | VStr s => negb (String.eqb s "")
  | VObj _ | VFun _ | VIntrinsic _ => true
  end.

(** ** Objects and the heap *)

(** Own properties in enumeration order. *)
Definition props := list (string * value).

Inductive object :=
| Plain (ps : props)
| Arr (elems : list value).

Definition heap := list object.

Fixpoint lookup_prop (p : string) (ps : props) : option value :=
  match ps with
  | [] => None
  | (k, v) :: rest => if String.eqb k p then Some v else lookup_prop p rest
  end.

(** Defining the own property [p] with value [v] on a property list: an
    existing key keeps its place, a new one goes last. *)
Fixpoint put_prop (p : string) (v : value) (ps : props) : props :=
  match ps with
  | [] => [(p, v)]
  | (k, w) :: rest =>
      if String.eqb k p then (p, v) :: rest else (k, w) :: put_prop p v rest
  end.

(** [delete o[p]] on a property list. *)
Fixpoint delete_prop (p : string) (ps : props) : props :=
  match ps with
  | [] => []
  | (k, w) :: rest =>
      if String.eqb k p then delete_prop p rest else (k, w) :: delete_prop p rest
  end.

Definition index_key (i : nat) : string :=
  NilEmpty.string_of_uint (Nat.to_uint i).

(** The enumerable own properties of an object, as the spread [{...o}] and
    [for (p in o)] see them: all of them for a plain object, the indices
    for an array (whose [length] is own but not enumerable). *)
Definition own_props (o : object) : props :=
  match o with
  | Plain ps => ps
  | Arr elems => zip (index_key <$> seq 0 (length elems)) elems
  end.

(** The keys [for (p in o)] visits, in order: the enumerable own keys, each
    of them once (an object has a key once; nothing enumerable is
    inherited from the two prototypes). *)
Definition keys (o : object) : list string := remove_dups (own_props o).*1.

(** [Object.prototype.hasOwnProperty.call(o, p)] *)
Definition has_own (o : object) (p : string) : bool :=
  match o with
  | Plain ps => bool_decide (is_Some (lookup_prop p ps))
  | Arr elems =>
      String.eqb p "length"
      || bool_decide (is_Some (lookup_prop p (own_props o)))
  end.

(** The value of the own property [p], if the object has one. *)
Definition own_value (o : object) (p : string) : option value :=
  match o with
  | Plain ps => lookup_prop p ps
  | Arr elems =>
      if String.eqb p "length" then Some (VNum (Finite (Z.of_nat (length elems))))
      else lookup_prop p (own_props o)
  end.

(** The string-named members of [Object.prototype] that are functions. *)
Definition object_prototype_names : list string :=
  ["constructor"; "hasOwnProperty"; "isPrototypeOf"; "propertyIsEnumerable";
   "toLocaleString"; "toString"; "valueOf";
   "__defineGetter__"; "__defineSetter__";
   "__lookupGetter__"; "__lookupSetter__"].

(** The string-named members of [Array.prototype] that are functions
    (ECMAScript 2023). *)
Definition array_prototype_names : list string :=
  ["at"; "concat"; "constructor"; "copyWithin"; "entries"; "every"; "fill";
   "filter"; "find"; "findIndex"; "findLast"; "findLastIndex"; "flat";
   "flatMap"; "forEach"; "includes"; "indexOf"; "join"; "keys";
   "lastIndexOf"; "map"; "pop"; "push"; "reduce"; "reduceRight"; "reverse";
   "shift"; "slice"; "some"; "sort"; "splice"; "toLocaleString";
   "toReversed"; "toSorted"; "toSpliced"; "toString"; "unshift"; "values";
   "with"].

Definition object_method (p : string) : value :=
  if bool_decide (p ∈ object_prototype_names) then VIntrinsic (ObjectMethod p)
  else VUndefined.

Definition array_method (p : string) : value :=
  if bool_decide (p ∈ array_prototype_names) then VIntrinsic (ArrayMethod p)
  else object_method p.

(** What a plain object reads for a name it has no own property of: the
    getter [__proto__] gives the prototype, the other names of
    [Object.prototype] their function, any other name [undefined]. *)
Definition from_object_prototype (p : string) : value :=
  if String.eqb p "__proto__" then VIntrinsic ObjectPrototype
  else object_method p.

(** The same for an array, through [Array.prototype] and then
    [Object.prototype]. *)
Definition from_array_prototype (p : string) : value :=
  if String.eqb p "__proto__" then VIntrinsic ArrayPrototype
  else array_method p.

Definition inherited (o : object) (p : string) : value :=
  match o with
  | Plain _ => from_object_prototype p
  | Arr _ => from_array_prototype p
  end.

(** [o[p]]: the own property, or else what the prototype chain gives. *)
Definition get (o : object) (p : string) : value :=
  match own_value o p with
  | Some v => v
  | None => inherited o p
  end.

(** [i[p]] on a prototype itself. *)
Definition intrinsic_get (i : intrinsic) (p : string) : value :=
  match i with
  | ObjectPrototype =>
      if String.eqb p "__proto__" then VNull else object_method p
  | ArrayPrototype =>
      if String.eqb p "__proto__" then VIntrinsic ObjectPrototype
      else if String.eqb p "length" then VNum (Finite 0)
      else array_method p
  | ObjectMethod _ | ArrayMethod _ => VUndefined
  end.

(** ** Heap computations

    A computation reads and writes the heap and yields a result, or has no
    result in the model ([None]): a call has thrown, or the state handed to
    the updater is not an object of the heap, which the code is not written
    for, or an assignment would replace the prototype of an object. *)

Definition M (A : Type) : Type := heap → option (A * heap).

Definition ret {A} (a : A) : M A := fun h => Some (a, h).

Definition bind {A B} (m : M A) (f : A → M B) : M B :=
  fun h => match m h with
           | Some (a, h') => f a h'
           | None => None
           end.

Definition unsupported {A} : M A := fun _ => None.

Notation "'let!' x ':=' m 'in' k" := (bind m (fun x => k))
  (at level 10, x pattern, m at level 100, k at level 200,
   format "'[v' 'let!'  x  :=  m  'in'  '/' k ']'").

(** The object a reference points to. *)
Definition deref (v : value) : M object :=
  fun h => match v with
           | VObj l => match h !! l with
                       | Some o => Some (o, h)
                       | None => None
                       end
           | _ => None
           end.

(** [{ ...state }]: a fresh plain object with the enumerable own properties
    of [state]. *)
Definition spread (state : value) : M value :=
  let! o := deref state in
  fun h => Some (VObj (length h), h ++ [Plain (own_props o)]).

(** [state[property]] *)
Definition get_member (state : value) (property : string) : M value :=
  let! o := deref state in
  ret (get o property).

(** [hasOwnProperty.call(state, property)] *)
Definition hasOwnProperty (state : value) (property : string) : M bool :=
  let! o := deref state in
  ret (has_own o property).

(** The computed key [[property]: value] of an object literal: the own
    property is defined on the object under construction, whatever its
    name. *)
Definition define_member (state : value) (property : string) (v : value)
  : M unit :=
  fun h => match state with
           | VObj l => match h !! l with
                       | Some (Plain ps) =>
                           Some (tt, <[l := Plain (put_prop property v ps)]> h)
                       | _ => None
                       end
           | _ => None
           end.

(** The assignment [state[property] = value] in place, on a plain object.
    It defines or updates the own property, except for [__proto__] on an
    object that has no own property of that name: the assignment then runs
    the setter inherited from [Object.prototype], which does nothing for a
    primitive other than [null] and replaces the prototype of the object
    otherwise, which has no result in the model. *)
Definition set_member (state : value) (property : string) (v : value)
  : M unit :=
  fun h => match state with
           | VObj l =>
               match h !! l with
               | Some (Plain ps) =>
                   if String.eqb property "__proto__"
                      && negb (has_own (Plain ps) property)
                   then
                     match v with
                     | VUndefined | VBool _ | VNum _ | VStr _ => Some (tt, h)
                     | VNull | VObj _ | VFun _ | VIntrinsic _ => None
                     end
                   else Some (tt, <[l := Plain (put_prop property v ps)]> h)
               | _ => None
               end
           | _ => None
           end.

(** [delete state[property]] in place, on a plain object; the properties
    being configurable, the result is [true]. *)
Definition delete_member (state : value) (property : string) : M bool :=
  fun h => match state with
           | VObj l => match h !! l with
                       | Some (Plain ps) =>
                           Some (true, <[l := Plain (delete_prop property ps)]> h)
                       | _ => None
                       end
           | _ => None
           end.

(** ** The updater *)

(** Lines 98-109 of [_set]. *)
Definition _set_write (state : value) (property : string) (v : value)
    (copyOnWrite : bool) : M value :=
  let! cur := get_member state property in
  if strict_neq cur v then
    if copyOnWrite then
      (* { ...state, [property]: value } *)
      let! newState := spread state in
      let! _ := define_member newState property v in
      ret newState
    else
      let! _ := set_member state property v in
      ret state
  else ret state.

Definition _set (state : value) (property : string) (v : value)
    (copyOnWrite : bool) : M value :=
  let! present :=
    (if bool_decide (typeof v = TUndefined) then hasOwnProperty state property
     else ret false) in
  if present then
    let! newState := (if copyOnWrite then spread state else ret state) in
    let! deleted := delete_member newState property in
    if deleted then ret newState
    else _set_write state property v copyOnWrite
  else _set_write state property v copyOnWrite.

Definition set (state : value) (property : string) (v : value) : M value :=
  _set state property v (* copyOnWrite *) true.

(** The body of the [for (property in source)] loop of [assign], over the
    keys still to visit.  The call passes [t === target] as a fourth
    argument to [set], which has three parameters and so never sees it. *)
Fixpoint assign_loop (target source : value) (properties : list string)
    (t : value) : M value :=
  match properties with
  | [] => ret t
  | property :: rest =>
      let! v := get_member source property in
      let _ignored := strict_eq t target in
      let! t' := set t property v in
      assign_loop target source rest t'
  end.

Definition assign (target source : value) : M value :=
  let! o := deref source in
  assign_loop target source (keys o) target.

(** ** Deep equality *)

(** Modelled from the spec: [equals] hands both arguments to lodash's
    [_.isEqual], which is not part of the source.  Section 4.1 of the
    specification describes it: the same type category, the same set of keys
    with pairwise equal values for mappings, the same elements in the same
    order for sequences, primitive equality for scalars, identity for
    functions, and values that may be cyclic.  The comparison follows
    references through the heap; [stack] holds the pairs of objects under
    comparison, and a pair met again is not compared again, so that two
    cyclic values of the same shape are equal.  Each level adds a pair to
    the stack and takes one unit of fuel. *)
Fixpoint isEqual (fuel : nat) (h : heap) (stack : list (loc * loc))
    (a b : value) : bool :=
  bool_decide (a = b) ||
  match a, b with
  | VObj la, VObj lb =>
      bool_decide ((la, lb) ∈ stack) ||
      match fuel with
      | 0 => false
      | S fuel' =>
          match h !! la, h !! lb with
          | Some (Plain pa), Some (Plain pb) =>
              forallb (fun k => has_own (Plain pb) k) pa.*1
              && forallb (fun k => has_own (Plain pa) k) pb.*1
              && forallb (fun k => isEqual fuel' h ((la, lb) :: stack)
                                     (default VUndefined (lookup_prop k pa))
                                     (default VUndefined (lookup_prop k pb)))
                         pa.*1
          | Some (Arr ea), Some (Arr eb) =>
              bool_decide (length ea = length eb)
              && forallb (fun xy => isEqual fuel' h ((la, lb) :: stack)
                                      xy.1 xy.2) (zip ea eb)
          | _, _ => false
          end
      end
  | _, _ => false
  end.

(** [equals(a, b)]; there are no more pairs of objects to put on the stack
    than the square of the size of the heap, which bounds the depth of the
    comparison. *)
Definition equals (h : heap) (a b : value) : bool :=
  isEqual (S (length h * length h)) h [] a b.

(** Modelled from the spec: one level of structural equivalence, as
    section 4.1 words it, the components being related by [R]: the same
    value, or two objects of the same category, mappings with the same set
    of keys and pairwise related values, sequences with the same elements
    in the same order. *)
Definition same_shape (h : heap) (R : value → value → Prop) (a b : value)
  : Prop :=
  a = b
  ∨ ∃ la lb, a = VObj la ∧ b = VObj lb ∧
      match h !! la, h !! lb with
      | Some (Plain pa), Some (Plain pb) =>
          (∀ k, k ∈ pa.*1 ↔ k ∈ pb.*1)
          ∧ ∀ k, k ∈ pa.*1 →
              R (default VUndefined (lookup_prop k pa))
                (default VUndefined (lookup_prop k pb))
      | Some (Arr ea), Some (Arr eb) => Forall2 R ea eb
      | _, _ => False
      end.

(** Modelled from the spec: structural equivalence, recursively; two values
    are equivalent when some relation that holds of them relates only
    values of the same shape with related components (which gives cyclic
    values the equivalence their unfoldings have). *)
Definition structurally_equivalent (h : heap) (a b : value) : Prop :=
  ∃ R : value → value → Prop,
    (∀ x y, R x y → same_shape h R x y) ∧ R a b.

(** ** Normalising a stateful entity *)

Section ToState.

(** What calling function [f] with no argument does: a result and the
    heap it leaves, or nothing when the call throws. *)
Variable call : fid → M value.

(** [v()]; what the functions of the two prototypes do when called is not
    part of the model. *)
Definition invoke (v : value) : M value :=
  match v with
  | VFun f => call f
  | _ => unsupported
  end.

(** The one-character strings of a string. *)
Fixpoint chars (s : string) : list value :=
  match s with
  | EmptyString => []
  | String c rest => VStr (String c EmptyString) :: chars rest
  end.

(** [v.getState] and [v.dispatch] on a truthy value that is not a function:
    an object of the heap, a prototype, or a primitive read through its
    wrapper, which has the indices and [length] for a string and neither of
    the two members on any wrapper prototype. *)
Definition read_member (v : value) (p : string) : M value :=
  match v with
  | VObj _ => get_member v p
  | VIntrinsic i => ret (intrinsic_get i p)
  | VStr s => ret (default VUndefined (own_value (Arr (chars s)) p))
  | VBool _ | VNum _ => ret VUndefined
  | VUndefined | VNull | VFun _ => unsupported
  end.

Definition toState (stateful : value) : M value :=
  if truthy stateful then
    if bool_decide (typeof stateful = TFunction) then invoke stateful
    else
      let! getState := read_member stateful "getState" in
      let! store :=
        (if bool_decide (typeof getState = TFunction) then
           let! dispatch := read_member stateful "dispatch" in
           ret (bool_decide (typeof dispatch = TFunction))
         else ret false) in
      if store then invoke getState else ret stateful
  else ret stateful.

End ToState.

(** ** Predicates of the statements *)

(** Setting [p] to [v] leaves an object as it is: [v] is not [undefined]
    with the object having an own [p], and [v] is identical to what the
    object reads for [p]. *)
Definition unchanged_by (o : object) (p : string) (v : value) : bool :=
  negb (bool_decide (v = VUndefined) && has_own o p)
  && strict_eq (get o p) v.

(** The properties of the object [set] allocates, if it allocates one. *)
Definition set_result (o : object) (p : string) (v : value) : option props :=
  if bool_decide (v = VUndefined) && has_own o p then
    Some (delete_prop p (own_props o))
  else if strict_neq (get o p) v then Some (put_prop p v (own_props o))
  else None.

(** The properties of a plain state after [set], in the object returned. *)
Definition step_props (ps : props) (p : string) (v : value) : props :=
  match set_result (Plain ps) p v with
  | Some ps' => ps'
  | None => ps
  end.

(** The objects the loop of [assign] allocates, in order, when it visits
    the keys [ks] of the change set [c] from a plain state [ps]. *)
Fixpoint clones (c : object) (ks : list string) (ps : props) : list props :=
  match ks with
  | [] => []
  | k :: rest =>
      match set_result (Plain ps) k (get c k) with
      | Some ps' => ps' :: clones c rest ps'
      | None => clones c rest ps
      end
  end.

(** The properties of the state the loop ends with. *)
Fixpoint final_props (c : object) (ks : list string) (ps : props) : props :=
  match ks with
  | [] => ps
  | k :: rest => final_props c rest (step_props ps k (get c k))
  end.

(** The own property [p] of a plain state after [set] to [v], when the
    state held [held] for it: [undefined] deletes an own property and is
    stored where it hides an inherited member; another value is stored
    unless the state already reads it. *)
Definition binding_after (held : option value) (p : string) (v : value)
  : option value :=
  if bool_decide (v = VUndefined) then
    match held with
    | Some _ => None
    | None =>
        if strict_neq (from_object_prototype p) VUndefined then Some VUndefined
        else None
    end
  else if strict_neq (default (from_object_prototype p) held) v then Some v
  else held.

(** Two values are a pair of objects that is on the stack of [isEqual]. *)
Definition on_stack (stack : list (loc * loc)) (x y : value) : Prop :=
  ∃ la lb, x = VObj la ∧ y = VObj lb ∧ (la, lb) ∈ stack.

(** [R] relates only values of the same shape, their components being
    related by [R] or on the stack. *)
Definition shape_closed (h : heap) (stack : list (loc * loc))
    (R : value → value → Prop) : Prop :=
  ∀ x y, R x y → same_shape h (fun x y => R x y ∨ on_stack stack x y) x y.

(** A stateful entity that [toState] takes for a store: an object whose
    [getState] and [dispatch] are both functions. *)
Definition is_store (h : heap) (v : value) : Prop :=
  ∃ l o, v = VObj l ∧ h !! l = Some o
         ∧ typeof (get o "getState") = TFunction
         ∧ typeof (get o "dispatch") = TFunction.

(** ** Example heaps *)

Definition num (z : Z) : value := VNum (Finite z).

(** [s = {a: 1, b: 2}] at 0, [c = {a: 10, b: 20}] at 1. *)
Definition heap_two_changes : heap :=
  [Plain [("a", num 1); ("b", num 2)];
   Plain [("a", num 10); ("b", num 20)]].

(** [s = {a: {x: 1}}] at 1 and [c = {a: {x: 1}}] at 3, the two inner
    objects being distinct: 0 and 2. *)
Definition heap_nested : heap :=
  [Plain [("x", num 1)];
   Plain [("a", VObj 0)];
   Plain [("x", num 1)];
   Plain [("a", VObj 2)]].

(** [s = {a: 1}] at 0, [c = {a: NaN}] at 1. *)
Definition heap_nan : heap :=
  [Plain [("a", num 1)];
   Plain [("a", VNum NaN)]].

(** [s = {b: 2}] at 0, [c = {toString: undefined}] at 1. *)
Definition heap_inherited : heap :=
  [Plain [("b", num 2)];
   Plain [("toString", VUndefined)]].

(** [{a: [1, {b: 2}]}] twice, at 2 and at 5, sharing nothing, then
    [{a: 1}] at 6 and [{a: '1'}] at 7. *)
Definition heap_equals : heap :=
  [Plain [("b", num 2)];
   Arr [num 1; VObj 0];
   Plain [("a", VObj 1)];
   Plain [("b", num 2)];
   Arr [num 1; VObj 3];
   Plain [("a", VObj 4)];
   Plain [("a", num 1)];
   Plain [("a", VStr "1")]].

(** Two cyclic values of the same shape: [a = {next: a}] at 0 and
    [b = {next: b}] at 1; then [{next: 1}] at 2. *)
Definition heap_cyclic : heap :=
  [Plain [("next", VObj 0)];
   Plain [("next", VObj 1)];
   Plain [("next", num 1)]].

(** A store at 0, with [getState] function 7 and [dispatch] function 8,
    and the state [{y: 2}] at 1. *)
Definition heap_store : heap :=
  [Plain [("getState", VFun 7); ("dispatch", VFun 8)];
   Plain [("y", num 2)]].

(** Function 7 returns the state at 1, every other function [undefined]. *)
Definition call_example (f : fid) : M value :=
  if f =? 7 then ret (VObj 1) else ret VUndefined.

(** [s = {a: 1, b: 2}] at 0, then the same changes in two orders:
    [{a: 10, b: 20}] at 1 and [{b: 20, a: 10}] at 2. *)
Definition heap_orders : heap :=
  [Plain [("a", num 1); ("b", num 2)];
   Plain [("a", num 10); ("b", num 20)];
   Plain [("b", num 20); ("a", num 10)]].

(** [s = {a: 1, b: undefined}] at 0. *)
Definition heap_self : heap :=
  [Plain [("a", num 1); ("b", VUndefined)]].

(** * Property lists *)

Section PropertyLists.

Implicit Types (p q : string) (v : value) (ps : props).

Lemma lookup_put_eq p v ps : lookup_prop p (put_prop p v ps) = Some v.
Proof.
  induction ps as [|[k w] ps IH]; simpl.
  - by rewrite String.eqb_refl.
  - destruct (String.eqb k p) eqn:E; simpl.
    + by rewrite String.eqb_refl.
    + by rewrite E.
Qed.

Lemma lookup_put_ne p q v ps :
  p ≠ q → lookup_prop q (put_prop p v ps) = lookup_prop q ps.
Proof.
  intros Hne. induction ps as [|[k w] ps IH]; simpl.
  - by rewrite (proj2 (String.eqb_neq p q)).
  - destruct (String.eqb_spec k p) as [->|Hkp]; simpl.
    + by rewrite (proj2 (String.eqb_neq p q)).
    + by rewrite IH.
Qed.

Lemma lookup_delete_prop_eq p ps : lookup_prop p (delete_prop p ps) = None.
Proof.
  induction ps as [|[k w] ps IH]; simpl; [done|].
  destruct (String.eqb k p) eqn:E; simpl; [done|]. by rewrite E.
Qed.

Lemma lookup_delete_prop_ne p q ps :
  p ≠ q → lookup_prop q (delete_prop p ps) = lookup_prop q ps.
Proof.
  intros Hne. induction ps as [|[k w] ps IH]; simpl; [done|].
  destruct (String.eqb_spec k p) as [->|Hkp]; simpl.
  - by rewrite (proj2 (String.eqb_neq p q)).
  - by rewrite IH.
Qed.

Lemma lookup_prop_keys p ps : is_Some (lookup_prop p ps) ↔ p ∈ ps.*1.
Proof.
  induction ps as [|[k w] ps IH]; simpl.
  - split; [by intros [? ?]|by intros ?%elem_of_nil].
  - rewrite elem_of_cons, <- IH.
    destruct (String.eqb_spec k p) as [->|Hkp]; [|].
    { split; [by left|by intros _; eexists]. }
    split; [by right|]. by intros [->|?].
Qed.

Lemma has_own_plain p ps :
  has_own (Plain ps) p = true ↔ p ∈ ps.*1.
Proof. simpl. by rewrite bool_decide_eq_true, lookup_prop_keys. Qed.

(** The loop visits the own enumerable keys, each once. *)
Lemma elem_of_keys (o : object) p : p ∈ keys o ↔ p ∈ (own_props o).*1.
Proof. apply elem_of_remove_dups. Qed.

Lemma NoDup_keys (o : object) : NoDup (keys o).
Proof. apply NoDup_remove_dups. Qed.

(** What a plain object reads: the own value, or else the inherited one. *)
Lemma get_plain ps p :
  get (Plain ps) p = default (from_object_prototype p) (lookup_prop p ps).
Proof. unfold get. simpl. by destruct (lookup_prop p ps). Qed.

End PropertyLists.

(** * One update *)

Section Update.

Implicit Types (h : heap) (l : loc) (o : object) (p : string) (v : value).

Lemma typeof_undefined v :
  bool_decide (typeof v = TUndefined) = bool_decide (v = VUndefined).
Proof. by destruct v as [| | | | | | |[]]. Qed.

Lemma lookup_fresh h o : (h ++ [o]) !! length h = Some o.
Proof. by rewrite list_lookup_middle. Qed.

Lemma insert_fresh h o o' : <[length h := o']> (h ++ [o]) = h ++ [o'].
Proof.
  rewrite insert_app_r_alt by lia. by rewrite Nat.sub_diag.
Qed.

(** What a call of [set] on an object of the heap does: the heap grows by
    one object, a plain one, or nothing happens. *)
Lemma set_eq h l o p v :
  h !! l = Some o →
  set (VObj l) p v h =
    match set_result o p v with
    | Some ps => Some (VObj (length h), h ++ [Plain ps])
    | None => Some (VObj l, h)
    end.
Proof.
  intros Hl.
  assert (_set_write (VObj l) p v true h =
            if strict_neq (get o p) v
            then Some (VObj (length h), h ++ [Plain (put_prop p v (own_props o))])
            else Some (VObj l, h)) as Hwrite.
  { unfold _set_write, get_member, bind, deref. rewrite Hl. simpl.
    destruct (strict_neq (get o p) v); [|done].
    unfold spread, bind, deref. rewrite Hl. unfold define_member.
    rewrite lookup_fresh. by rewrite insert_fresh. }
  unfold set, _set, set_result, bind.
  rewrite typeof_undefined. case_bool_decide as Hv; simpl.
  - unfold hasOwnProperty, bind, deref. rewrite Hl. simpl.
    destruct (has_own o p) eqn:Hown.
    + unfold spread, bind, deref. rewrite Hl. unfold delete_member.
      rewrite lookup_fresh. by rewrite insert_fresh.
    + rewrite Hwrite. by destruct (strict_neq (get o p) v).
  - rewrite Hwrite. by destruct (strict_neq (get o p) v).
Qed.

(** With [copyOnWrite] false, [_set] allocates nothing: the state it is
    given is the state it returns, updated in place where [set] would
    have cloned it.  (For [__proto__] the assignment in place runs the
    inherited setter.) *)
Lemma _set_in_place h l ps p v :
  h !! l = Some (Plain ps) →
  p ≠ "__proto__" →
  _set (VObj l) p v false h =
    Some (VObj l, match set_result (Plain ps) p v with
                  | Some ps' => <[l := Plain ps']> h
                  | None => h
                  end).
Proof.
  intros Hl Hp.
  assert (_set_write (VObj l) p v false h =
            Some (VObj l, if strict_neq (get (Plain ps) p) v
                          then <[l := Plain (put_prop p v ps)]> h else h))
    as Hwrite.
  { unfold _set_write, get_member, bind, deref. rewrite Hl.
    unfold ret at 1.
    destruct (strict_neq (get (Plain ps) p) v); [|done].
    unfold set_member. rewrite Hl.
    by rewrite (proj2 (String.eqb_neq p "__proto__") Hp). }
  unfold _set, set_result, bind.
  rewrite typeof_undefined. case_bool_decide as Hv.
  - unfold hasOwnProperty, bind, deref. rewrite Hl. unfold ret at 1.
    destruct (has_own (Plain ps) p) eqn:Hown; simpl andb; cbv iota.
    + unfold ret at 1, delete_member. by rewrite Hl.
    + rewrite Hwrite. by destruct (strict_neq _ _).
  - unfold ret at 1. simpl andb. cbv iota.
    rewrite Hwrite. by destruct (strict_neq _ _).
Qed.

Lemma set_result_unchanged o p v :
  set_result o p v = None ↔ unchanged_by o p v = true.
Proof.
  unfold set_result, unchanged_by, strict_neq.
  destruct (bool_decide (v = VUndefined) && has_own o p); simpl; [done|].
  by destruct (strict_eq (get o p) v).
Qed.

End Update.

(** * The loop of [assign] *)

Section Loop.

Implicit Types (h : heap) (l : loc) (c : object) (ps : props).

Lemma assign_unfold h lt ls c :
  h !! ls = Some c →
  assign (VObj lt) (VObj ls) h =
    assign_loop (VObj lt) (VObj ls) (keys c) (VObj lt) h.
Proof. intros Hc. unfold assign, bind, deref. by rewrite Hc. Qed.

Lemma assign_loop_step h target lt ls c ps k ks :
  h !! ls = Some c → h !! lt = Some (Plain ps) →
  assign_loop target (VObj ls) (k :: ks) (VObj lt) h =
    match set_result (Plain ps) k (get c k) with
    | Some ps' =>
        assign_loop target (VObj ls) ks (VObj (length h)) (h ++ [Plain ps'])
    | None => assign_loop target (VObj ls) ks (VObj lt) h
    end.
Proof.
  intros Hc Ht. simpl. unfold bind at 1. unfold get_member, bind at 1, deref.
  rewrite Hc. simpl. unfold bind at 1. rewrite (set_eq _ _ _ _ _ Ht).
  by destruct (set_result (Plain ps) k (get c k)).
Qed.

(** The loop always ends with a result: the heap has grown by the clones,
    the state returned holds the final properties, and it is the state the
    loop started from when nothing was cloned, a fresh one otherwise. *)
Lemma assign_loop_spec ks : ∀ h target lt ls c ps,
  h !! ls = Some c → h !! lt = Some (Plain ps) →
  ∃ r,
    assign_loop target (VObj ls) ks (VObj lt) h
      = Some (VObj r, h ++ (Plain <$> clones c ks ps))
    ∧ (h ++ (Plain <$> clones c ks ps)) !! r
        = Some (Plain (final_props c ks ps))
    ∧ (clones c ks ps = [] → r = lt)
    ∧ (clones c ks ps ≠ [] → length h ≤ r).
Proof.
  induction ks as [|k ks IH]; intros h target lt ls c ps Hc Ht.
  - exists lt. simpl. rewrite app_nil_r. by split; [|split].
  - rewrite (assign_loop_step _ _ _ _ _ _ _ _ Hc Ht). simpl.
    unfold step_props.
    destruct (set_result (Plain ps) k (get c k)) as [ps'|] eqn:Hres.
    + destruct (IH (h ++ [Plain ps']) target (length h) ls c ps')
        as (r & Hrun & Hr & Hsame & Hfresh).
      { by apply lookup_app_l_Some. }
      { apply lookup_fresh. }
      assert (∀ new, h ++ Plain ps' :: new = (h ++ [Plain ps']) ++ new)
        as Hassoc by (intros new; by rewrite <- app_assoc).
      exists r. rewrite fmap_cons, (Hassoc (Plain <$> clones c ks ps')).
      split; [exact Hrun|]. split; [exact Hr|]. split; [by intros ?|].
      intros _. destruct (clones c ks ps') as [|x xs] eqn:Hcl.
      * by rewrite Hsame.
      * assert (length (h ++ [Plain ps']) ≤ r) as Hle by by apply Hfresh.
        rewrite length_app in Hle. simpl in Hle. lia.
    + by apply IH.
Qed.

Lemma step_props_other ps p q v :
  p ≠ q → lookup_prop q (step_props ps p v) = lookup_prop q ps.
Proof.
  intros Hne. unfold step_props, set_result. simpl.
  destruct (bool_decide (v = VUndefined) && _).
  - by apply lookup_delete_prop_ne.
  - destruct (strict_neq _ _); [|done]. by apply lookup_put_ne.
Qed.

(** The properties the change set does not name are those of the state
    the loop started from. *)
Lemma final_props_other c ks : ∀ ps q,
  q ∉ ks → lookup_prop q (final_props c ks ps) = lookup_prop q ps.
Proof.
  induction ks as [|k ks IH]; intros ps q Hq; simpl; [done|].
  apply not_elem_of_cons in Hq as [Hqk Hq].
  rewrite IH by done. by apply step_props_other.
Qed.

Lemma unchanged_no_clones c ks : ∀ ps,
  (∀ k, k ∈ ks → unchanged_by (Plain ps) k (get c k) = true) →
  clones c ks ps = [].
Proof.
  induction ks as [|k ks IH]; intros ps Hall; simpl; [done|].
  rewrite (proj2 (set_result_unchanged _ _ _)).
  - apply IH. intros k' Hk'. apply Hall. by right.
  - apply Hall. by left.
Qed.

End Loop.

(** * A second pass over the same change set *)

Section Settled.

Implicit Types (c : object) (ps : props) (k : string) (v : value).

Lemma strict_eq_refl v : v ≠ VNum NaN → strict_eq v v = true.
Proof.
  intros Hv. destruct v as [| |b|[|z]|s|l|f|i]; simpl; try done;
    by rewrite bool_decide_eq_true_2.
Qed.

Lemma strict_eq_true a b : strict_eq a b = true → a = b.
Proof.
  destruct a as [| |?|[|?]|?|?|?|?], b as [| |?|[|?]|?|?|?|?]; simpl;
    try done; by intros ?%bool_decide_eq_true.
Qed.

Lemma unchanged_by_plain ps k v :
  unchanged_by (Plain ps) k v
  = negb (bool_decide (v = VUndefined)
          && bool_decide (is_Some (lookup_prop k ps)))
    && strict_eq (default (from_object_prototype k) (lookup_prop k ps)) v.
Proof. unfold unchanged_by. by rewrite get_plain. Qed.

Lemma unchanged_by_lookup ps ps' k v :
  lookup_prop k ps = lookup_prop k ps' →
  unchanged_by (Plain ps) k v = unchanged_by (Plain ps') k v.
Proof. intros E. by rewrite !unchanged_by_plain, E. Qed.

(** The own property set, after one step. *)
Lemma step_props_same ps p v :
  lookup_prop p (step_props ps p v) = binding_after (lookup_prop p ps) p v.
Proof.
  unfold step_props, set_result, binding_after. rewrite get_plain.
  simpl has_own. simpl own_props.
  destruct (lookup_prop p ps) as [w|] eqn:Hw; simpl.
  - case_bool_decide as Hv; simpl; [apply lookup_delete_prop_eq|].
    destruct (strict_neq w v); [apply lookup_put_eq|done].
  - rewrite andb_false_r.
    case_bool_decide as Hv; simpl.
    + subst v. destruct (strict_neq _ _); [apply lookup_put_eq|done].
    + destruct (strict_neq _ _); [apply lookup_put_eq|done].
Qed.

Lemma step_props_lookup ps p v k :
  lookup_prop k (step_props ps p v)
  = if bool_decide (k = p) then binding_after (lookup_prop p ps) p v
    else lookup_prop k ps.
Proof.
  case_bool_decide as Hk.
  - subst k. apply step_props_same.
  - by apply step_props_other.
Qed.

(** Once a property has been set to a value other than [NaN], setting it
    to that value again changes nothing, unless the value is [undefined]
    and the prototype has a member of that name. *)
Lemma step_props_settled ps k v :
  v ≠ VNum NaN →
  (v = VUndefined → from_object_prototype k = VUndefined) →
  unchanged_by (Plain (step_props ps k v)) k v = true.
Proof.
  intros Hnan Hinh. rewrite unchanged_by_plain, step_props_same.
  unfold binding_after, strict_neq.
  case_bool_decide as Hv; simpl.
  - rewrite (Hinh Hv). subst v. simpl.
    by destruct (lookup_prop k ps).
  - destruct (strict_eq (default _ (lookup_prop k ps)) v) eqn:Heq; simpl.
    + done.
    + by apply strict_eq_refl.
Qed.

Lemma final_props_settled c ks : ∀ ps k,
  (∀ k', k' ∈ ks → get c k' ≠ VNum NaN) →
  (∀ k', k' ∈ ks → get c k' = VUndefined →
         from_object_prototype k' = VUndefined) →
  k ∈ ks →
  unchanged_by (Plain (final_props c ks ps)) k (get c k) = true.
Proof.
  induction ks as [|k0 ks IH]; intros ps k Hnan Hinh Hk; simpl.
  - by apply elem_of_nil in Hk.
  - destruct (decide (k ∈ ks)) as [Hin|Hout].
    + apply IH; [| |done].
      * intros k' Hk'. apply Hnan. by right.
      * intros k' Hk'. apply Hinh. by right.
    + apply elem_of_cons in Hk as [->|Hk]; [|done].
      rewrite (unchanged_by_lookup _ (step_props ps k0 (get c k0))).
      * apply step_props_settled; [apply Hnan|apply Hinh]; by left.
      * by apply final_props_other.
Qed.

End Settled.

(** * The updater: statements *)

(** C1, as the code has it: when every key of the change set [c] maps to a
    value that is identical ([===]) to what the state [s] reads for that
    key, own or inherited, and is not [undefined] while [s] has an own
    property of that key (so that [undefined] qualifies only for a key
    that [s] neither has nor inherits), [assign(s, c)] returns the
    reference [s] itself and the heap is the one before the call: nothing
    was allocated. *)
Theorem assign_identity_preserved (h : heap) (ls lc : loc) (ps : props)
    (c : object) :
  h !! ls = Some (Plain ps) →
  h !! lc = Some c →
  (∀ k, k ∈ keys c → unchanged_by (Plain ps) k (get c k) = true) →
  assign (VObj ls) (VObj lc) h = Some (VObj ls, h).
Proof.
  intros Hs Hc Hsame. rewrite (assign_unfold _ _ _ _ Hc).
  destruct (assign_loop_spec (keys c) h (VObj ls) ls lc c ps Hc Hs)
    as (r & Hrun & _ & Hr & _).
  rewrite (unchanged_no_clones _ _ _ Hsame) in Hrun, Hr.
  simpl in Hrun. rewrite app_nil_r in Hrun. by rewrite Hrun, Hr.
Qed.

Lemma assign_identity_preserved_witness :
  heap_two_changes !! 0 = Some (Plain [("a", num 1); ("b", num 2)])
  ∧ (heap_two_changes ++ [Plain [("b", num 2)]]) !! 2
      = Some (Plain [("b", num 2)])
  ∧ assign (VObj 0) (VObj 2) (heap_two_changes ++ [Plain [("b", num 2)]])
      = Some (VObj 0, heap_two_changes ++ [Plain [("b", num 2)]]).
Proof.
  split; [reflexivity|]. split; [reflexivity|].
  apply (assign_identity_preserved _ 0 2 [("a", num 1); ("b", num 2)]
           (Plain [("b", num 2)])); [reflexivity|reflexivity|].
  intros k Hk. change (k ∈ ["b"]) in Hk.
  apply list_elem_of_singleton in Hk. subst k. reflexivity.
Defined.

(** C1, the claim as stated fails: [s = {a: {x: 1}}] and [c = {a: {x: 1}}]
    with two distinct inner objects; the value of every key of [c] is
    deep-equal to the value [s] has for it, and [assign(s, c)] returns a
    fresh object, not [s]. *)
Lemma assign_deep_equal_clones :
  forallb (fun k => equals heap_nested (get (Plain [("a", VObj 2)]) k)
                                       (get (Plain [("a", VObj 0)]) k))
          (keys (Plain [("a", VObj 2)])) = true
  ∧ assign (VObj 1) (VObj 3) heap_nested
      = Some (VObj 4, heap_nested ++ [Plain [("a", VObj 2)]])
  ∧ VObj 4 ≠ VObj 1.
Proof. split; [reflexivity|]. split; [reflexivity|discriminate]. Qed.

(** C2, the code at [s = {a: 1, b: 2}], [c = {a: 10, b: 20}]: the call
    [assign(s, c)] allocates two objects, [{a: 10, b: 2}] for the first
    changed property and [{a: 10, b: 20}] for the second. *)
Theorem assign_two_changes_two_clones :
  assign (VObj 0) (VObj 1) heap_two_changes
    = Some (VObj 3,
            heap_two_changes
              ++ [Plain [("a", num 10); ("b", num 2)];
                  Plain [("a", num 10); ("b", num 20)]]).
Proof. reflexivity. Qed.

(** C3: when the state [s] has an own property [p], [set(s, p, undefined)]
    returns a reference to a new object, other than [s], that has no own
    property [p] (and every other property of [s]), while [s] is still in
    the heap with [p]. *)
Theorem set_undefined_deletes (h : heap) (ls : loc) (ps : props) (p : string) :
  h !! ls = Some (Plain ps) →
  has_own (Plain ps) p = true →
  ∃ r h' ps',
    set (VObj ls) p VUndefined h = Some (VObj r, h')
    ∧ r ≠ ls
    ∧ h !! r = None
    ∧ h' !! r = Some (Plain ps')
    ∧ has_own (Plain ps') p = false
    ∧ (∀ q, q ≠ p → lookup_prop q ps' = lookup_prop q ps)
    ∧ h' !! ls = Some (Plain ps).
Proof.
  intros Hs Hown. exists (length h), (h ++ [Plain (delete_prop p ps)]),
    (delete_prop p ps).
  rewrite (set_eq _ _ _ _ _ Hs). unfold set_result.
  rewrite Hown. simpl.
  split; [done|]. split.
  { apply lookup_lt_Some in Hs. lia. }
  split; [by apply lookup_ge_None|].
  split; [apply lookup_fresh|]. split.
  { apply bool_decide_eq_false. rewrite lookup_delete_prop_eq.
    by intros [? ?]. }
  split; [by intros q Hq; apply lookup_delete_prop_ne|].
  by apply lookup_app_l_Some.
Qed.

Lemma set_undefined_deletes_witness :
  has_own (Plain [("a", num 1); ("b", num 2)]) "a" = true
  ∧ ∃ r h' ps',
      set (VObj 0) "a" VUndefined heap_two_changes = Some (VObj r, h')
      ∧ r ≠ 0
      ∧ heap_two_changes !! r = None
      ∧ h' !! r = Some (Plain ps')
      ∧ has_own (Plain ps') "a" = false
      ∧ (∀ q, q ≠ "a" →
           lookup_prop q ps' = lookup_prop q [("a", num 1); ("b", num 2)])
      ∧ h' !! 0 = Some (Plain [("a", num 1); ("b", num 2)]).
Proof.
  split; [reflexivity|].
  apply (set_undefined_deletes heap_two_changes 0
           [("a", num 1); ("b", num 2)] "a"); reflexivity.
Defined.

(** C4: neither [set] nor [assign] modifies the state [s] they are given.
    Both return a result; the heap after the call extends the heap before
    it, so [s], like every object that existed, has the own properties and
    values it had; and the object returned agrees with [s], in presence and
    in value, on every property other than the one set, respectively on
    every property that is not a key of the change set. *)
Theorem updater_leaves_state (h : heap) (ls : loc) (ps : props) :
  h !! ls = Some (Plain ps) →
  (∀ p v, ∃ r h' ps',
      set (VObj ls) p v h = Some (VObj r, h')
      ∧ h `prefix_of` h'
      ∧ h' !! ls = Some (Plain ps)
      ∧ h' !! r = Some (Plain ps')
      ∧ ∀ q, q ≠ p → lookup_prop q ps' = lookup_prop q ps)
  ∧ (∀ lc c, h !! lc = Some c →
      ∃ r h' ps',
        assign (VObj ls) (VObj lc) h = Some (VObj r, h')
        ∧ h `prefix_of` h'
        ∧ h' !! ls = Some (Plain ps)
        ∧ h' !! r = Some (Plain ps')
        ∧ ∀ q, q ∉ keys c → lookup_prop q ps' = lookup_prop q ps).
Proof.
  intros Hs. split.
  - intros p v. rewrite (set_eq _ _ _ _ _ Hs).
    pose proof (step_props_other ps p) as Hother. unfold step_props in Hother.
    destruct (set_result (Plain ps) p v) as [ps'|] eqn:Hres.
    + exists (length h), (h ++ [Plain ps']), ps'.
      split; [done|]. split; [by apply prefix_app_r|].
      split; [by apply lookup_app_l_Some|]. split; [apply lookup_fresh|].
      intros q Hq. specialize (Hother q v (not_eq_sym Hq)).
      by rewrite Hres in Hother.
    + exists ls, h, ps. by repeat split.
  - intros lc c Hc. rewrite (assign_unfold _ _ _ _ Hc).
    destruct (assign_loop_spec (keys c) h (VObj ls) ls lc c ps Hc Hs)
      as (r & Hrun & Hr & _ & _).
    exists r, (h ++ (Plain <$> clones c (keys c) ps)),
      (final_props c (keys c) ps).
    split; [done|]. split; [by apply prefix_app_r|].
    split; [by apply lookup_app_l_Some|]. split; [done|].
    intros q Hq. by apply final_props_other.
Qed.

Lemma updater_leaves_state_witness :
  heap_two_changes !! 0 = Some (Plain [("a", num 1); ("b", num 2)])
  ∧ ∃ r h' ps',
      assign (VObj 0) (VObj 1) heap_two_changes = Some (VObj r, h')
      ∧ heap_two_changes `prefix_of` h'
      ∧ h' !! 0 = Some (Plain [("a", num 1); ("b", num 2)])
      ∧ h' !! r = Some (Plain ps')
      ∧ ∀ q, q ∉ keys (Plain [("a", num 10); ("b", num 20)]) →
             lookup_prop q ps' = lookup_prop q [("a", num 1); ("b", num 2)].
Proof.
  split; [reflexivity|].
  apply (updater_leaves_state heap_two_changes 0
           [("a", num 1); ("b", num 2)]); reflexivity.
Defined.

(** C5: for a value [v] other than [undefined], [set(s, p, v)] returns the
    reference [s] itself, the heap untouched, when the value [s] has for
    [p] is identical ([===]) to [v]; otherwise it returns a reference to a
    new object whose value for [p] is [v] and whose other properties are
    those of [s]. *)
Theorem set_value (h : heap) (ls : loc) (ps : props) (p : string) (v : value) :
  h !! ls = Some (Plain ps) →
  v ≠ VUndefined →
  (strict_eq (get (Plain ps) p) v = true →
     set (VObj ls) p v h = Some (VObj ls, h))
  ∧ (strict_eq (get (Plain ps) p) v = false →
     ∃ r h' ps',
       set (VObj ls) p v h = Some (VObj r, h')
       ∧ r ≠ ls
       ∧ h !! r = None
       ∧ h' !! r = Some (Plain ps')
       ∧ lookup_prop p ps' = Some v
       ∧ ∀ q, q ≠ p → lookup_prop q ps' = lookup_prop q ps).
Proof.
  intros Hs Hv. rewrite (set_eq _ _ _ _ _ Hs). unfold set_result, strict_neq.
  rewrite (bool_decide_eq_false_2 _ Hv). simpl.
  split; intros Heq; simpl in Heq; rewrite Heq; simpl; [done|].
  exists (length h), (h ++ [Plain (put_prop p v ps)]), (put_prop p v ps).
  split; [done|]. split.
  { apply lookup_lt_Some in Hs. lia. }
  split; [by apply lookup_ge_None|]. split; [apply lookup_fresh|].
  split; [apply lookup_put_eq|]. by intros q Hq; apply lookup_put_ne.
Qed.

Lemma set_value_witness :
  heap_two_changes !! 0 = Some (Plain [("a", num 1); ("b", num 2)])
  ∧ num 3 ≠ VUndefined
  ∧ (strict_eq (get (Plain [("a", num 1); ("b", num 2)]) "a") (num 3) = true →
       set (VObj 0) "a" (num 3) heap_two_changes
         = Some (VObj 0, heap_two_changes))
  ∧ (strict_eq (get (Plain [("a", num 1); ("b", num 2)]) "a") (num 3) = false →
       ∃ r h' ps',
         set (VObj 0) "a" (num 3) heap_two_changes = Some (VObj r, h')
         ∧ r ≠ 0
         ∧ heap_two_changes !! r = None
         ∧ h' !! r = Some (Plain ps')
         ∧ lookup_prop "a" ps' = Some (num 3)
         ∧ ∀ q, q ≠ "a" →
                lookup_prop q ps' = lookup_prop q [("a", num 1); ("b", num 2)]).
Proof.
  split; [reflexivity|]. split; [discriminate|].
  apply (set_value heap_two_changes 0 [("a", num 1); ("b", num 2)] "a"
           (num 3)); [reflexivity|discriminate].
Defined.

(** C6, as the code has it: when the state [s] has no own property [p]
    and inherits no member of that name from its prototype, so that
    [s[p]] reads [undefined], [set(s, p, undefined)] returns the reference
    [s] itself and leaves the heap as it is. *)
Theorem set_undefined_absent (h : heap) (ls : loc) (ps : props) (p : string) :
  h !! ls = Some (Plain ps) →
  has_own (Plain ps) p = false →
  from_object_prototype p = VUndefined →
  set (VObj ls) p VUndefined h = Some (VObj ls, h).
Proof.
  intros Hs Hown Hinh. rewrite (set_eq _ _ _ _ _ Hs).
  rewrite (proj2 (set_result_unchanged _ _ _)); [done|].
  rewrite unchanged_by_plain. simpl in Hown. rewrite Hown, andb_false_r.
  apply bool_decide_eq_false in Hown. rewrite <- eq_None_not_Some in Hown.
  by rewrite Hown, Hinh.
Qed.

Lemma set_undefined_absent_witness :
  heap_two_changes !! 0 = Some (Plain [("a", num 1); ("b", num 2)])
  ∧ has_own (Plain [("a", num 1); ("b", num 2)]) "c" = false
  ∧ from_object_prototype "c" = VUndefined
  ∧ set (VObj 0) "c" VUndefined heap_two_changes
      = Some (VObj 0, heap_two_changes).
Proof.
  split; [reflexivity|]. split; [reflexivity|]. split; [reflexivity|].
  apply (set_undefined_absent heap_two_changes 0
           [("a", num 1); ("b", num 2)] "c"); reflexivity.
Defined.

(** C6, the claim as stated fails: [s = {b: 2}] has no own property
    [toString], and [set(s, 'toString', undefined)] reads the function
    inherited from [Object.prototype], which is not [undefined], and
    returns the new object [{b: 2, toString: undefined}], not [s]. *)
Lemma set_undefined_inherited_clones :
  has_own (Plain [("b", num 2)]) "toString" = false
  ∧ get (Plain [("b", num 2)]) "toString"
    = VIntrinsic (ObjectMethod "toString")
  ∧ set (VObj 0) "toString" VUndefined heap_inherited
    = Some (VObj 2,
            heap_inherited
              ++ [Plain [("b", num 2); ("toString", VUndefined)]])
  ∧ VObj 2 ≠ VObj 0.
Proof.
  split; [reflexivity|]. split; [reflexivity|].
  split; [reflexivity|discriminate].
Qed.

(** C9, as the code has it: when no value of the change set [c] is [NaN]
    and no key of [c] that maps to [undefined] names a member inherited
    from [Object.prototype], [assign(s, c)] returns a state [r] and a
    second [assign(r, c)] returns the reference [r] itself and leaves the
    heap as the first call left it. *)
Theorem assign_idempotent (h : heap) (ls lc : loc) (ps : props) (c : object) :
  h !! ls = Some (Plain ps) →
  h !! lc = Some c →
  (∀ k, k ∈ keys c → get c k ≠ VNum NaN) →
  (∀ k, k ∈ keys c → get c k = VUndefined →
        from_object_prototype k = VUndefined) →
  ∃ r h',
    assign (VObj ls) (VObj lc) h = Some (r, h')
    ∧ assign r (VObj lc) h' = Some (r, h').
Proof.
  intros Hs Hc Hnan Hinh.
  destruct (assign_loop_spec (keys c) h (VObj ls) ls lc c ps Hc Hs)
    as (r & Hrun & Hr & _ & _).
  set (h' := h ++ (Plain <$> clones c (keys c) ps)) in *.
  assert (h' !! lc = Some c) as Hc' by by apply lookup_app_l_Some.
  exists (VObj r), h'. split; [by rewrite (assign_unfold _ _ _ _ Hc)|].
  rewrite (assign_unfold _ _ _ _ Hc').
  destruct (assign_loop_spec (keys c) h' (VObj r) r lc c _ Hc' Hr)
    as (r' & Hrun' & _ & Hr' & _).
  rewrite (unchanged_no_clones c (keys c)) in Hrun', Hr'.
  - simpl in Hrun'. rewrite app_nil_r in Hrun'. by rewrite Hrun', Hr'.
  - intros k Hk. by apply final_props_settled.
  - intros k Hk. by apply final_props_settled.
Qed.

Lemma assign_idempotent_witness :
  heap_two_changes !! 0 = Some (Plain [("a", num 1); ("b", num 2)])
  ∧ heap_two_changes !! 1 = Some (Plain [("a", num 10); ("b", num 20)])
  ∧ ∃ r h',
      assign (VObj 0) (VObj 1) heap_two_changes = Some (r, h')
      ∧ assign r (VObj 1) h' = Some (r, h').
Proof.
  split; [reflexivity|]. split; [reflexivity|].
  apply (assign_idempotent heap_two_changes 0 1
           [("a", num 1); ("b", num 2)]
           (Plain [("a", num 10); ("b", num 20)])); [reflexivity..| |].
  - intros k Hk. change (k ∈ ["a"; "b"]) in Hk. apply list_elem_of_In in Hk.
    destruct Hk as [<-|[<-|[]]]; discriminate.
  - intros k Hk. change (k ∈ ["a"; "b"]) in Hk. apply list_elem_of_In in Hk.
    destruct Hk as [<-|[<-|[]]]; discriminate.
Defined.

(** C9, the claim as stated fails: with [s = {a: 1}] and [c = {a: NaN}],
    [assign(s, c)] returns the new object at 2 and [assign] of that object
    and [c] returns another new object, at 3.  (So it does with
    [s = {b: 2}] and [c = {toString: undefined}], where the second call
    deletes the property the first one has stored.) *)
Lemma assign_nan_not_idempotent :
  assign (VObj 0) (VObj 1) heap_nan
    = Some (VObj 2, heap_nan ++ [Plain [("a", VNum NaN)]])
  ∧ assign (VObj 2) (VObj 1) (heap_nan ++ [Plain [("a", VNum NaN)]])
    = Some (VObj 3, heap_nan ++ [Plain [("a", VNum NaN)];
                                 Plain [("a", VNum NaN)]])
  ∧ VObj 3 ≠ VObj 2.
Proof. split; [reflexivity|]. split; [reflexivity|discriminate]. Qed.

(** The second condition of C9 is needed: [s = {b: 2}] and
    [c = {toString: undefined}]; the first [assign] stores [undefined]
    over the inherited [toString], the second deletes it again, in a new
    object. *)
Example assign_inherited_not_idempotent :
  assign (VObj 0) (VObj 1) heap_inherited
    = Some (VObj 2,
            heap_inherited
              ++ [Plain [("b", num 2); ("toString", VUndefined)]])
  ∧ assign (VObj 2) (VObj 1)
      (heap_inherited ++ [Plain [("b", num 2); ("toString", VUndefined)]])
    = Some (VObj 3,
            heap_inherited
              ++ [Plain [("b", num 2); ("toString", VUndefined)];
                  Plain [("b", num 2)]]).
Proof. split; reflexivity. Qed.


(** * Deep equality: statements *)

Section DeepEquality.

Variable h : heap.

Implicit Types (a b x y : value) (R : value → value → Prop)
  (stack : list (loc * loc)).

Lemma isEqual_refl fuel stack a : isEqual fuel h stack a a = true.
Proof. destruct fuel; simpl; by rewrite bool_decide_eq_true_2. Qed.

Lemma same_shape_mono R R' a b :
  (∀ x y, R x y → R' x y) → same_shape h R a b → same_shape h R' a b.
Proof.
intros Hsub [->|(la & lb & -> & -> & Hm)]; [by left|].
right. exists la, lb. split; [done|]. split; [done|].
destruct (h !! la) as [[pa|ea]|], (h !! lb) as [[pb|eb]|]; try done.
- destruct Hm as [Hkeys Hall]. split; [done|]. intros k Hk. by apply Hsub, Hall.
- by apply (Forall2_impl R).
Qed.

(** The components compared at one level, for two mappings. *)
Lemma forallb_keys (f : value → value → bool) (pa pb : props)
    (ks : list string) :
  forallb (fun k => f (default VUndefined (lookup_prop k pa))
                      (default VUndefined (lookup_prop k pb))) ks = true
  ↔ ∀ k, k ∈ ks → f (default VUndefined (lookup_prop k pa))
                    (default VUndefined (lookup_prop k pb)) = true.
Proof.
rewrite forallb_forall.
split; intros Hall k Hk; apply Hall; by apply list_elem_of_In.
Qed.

Lemma forallb_has_own (pb : props) (ks : list string) :
  forallb (fun k => has_own (Plain pb) k) ks = true
  ↔ ∀ k, k ∈ ks → k ∈ pb.*1.
Proof.
rewrite forallb_forall.
split; intros Hall k Hk; apply has_own_plain, Hall; by apply list_elem_of_In.
Qed.

(** The components compared at one level, for two sequences. *)
Lemma forallb_zip (f : value → value → bool) (ea eb : list value) :
  length ea = length eb →
  forallb (fun xy => f xy.1 xy.2) (zip ea eb) = true
  ↔ Forall2 (fun x y => f x y = true) ea eb.
Proof.
revert eb. induction ea as [|x ea IH]; intros [|y eb] Hlen; simpl in *;
  try done.
rewrite andb_true_iff, IH by lia. split.
- intros [? ?]. by constructor.
- by intros [? ?]%Forall2_cons.
Qed.

(** A comparison that succeeds has compared, and found of the same shape,
    the pairs of a relation that is closed up to the stack. *)
Lemma isEqual_sound fuel : ∀ stack a b,
  isEqual fuel h stack a b = true →
  ∃ R, shape_closed h stack R ∧ (R a b ∨ on_stack stack a b).
Proof.
induction fuel as [|fuel IH]; intros stack a b Heq.
- simpl in Heq. apply orb_true_iff in Heq as [Heq|Heq].
  + apply bool_decide_eq_true in Heq as ->.
    exists eq. split; [|by left]. intros x y ->. by left.
  + destruct a as [| | | | |la| |], b as [| | | | |lb| |]; try done.
    rewrite orb_false_r in Heq. apply bool_decide_eq_true in Heq.
    exists (fun _ _ => False). split; [by intros ? ? []|].
    right. by exists la, lb.
- simpl in Heq. apply orb_true_iff in Heq as [Heq|Heq].
  { apply bool_decide_eq_true in Heq as ->.
    exists eq. split; [|by left]. intros x y ->. by left. }
  destruct a as [| | | | |la| |], b as [| | | | |lb| |]; try done.
  apply orb_true_iff in Heq as [Heq|Heq].
  { apply bool_decide_eq_true in Heq.
    exists (fun _ _ => False). split; [by intros ? ? []|].
    right. by exists la, lb. }
  (* the components, as a list of pairs that all compare equal *)
  assert (∀ l : list (value * value),
            Forall (fun xy => isEqual fuel h ((la, lb) :: stack) xy.1 xy.2
                              = true) l →
            ∃ R, shape_closed h ((la, lb) :: stack) R
                 ∧ Forall (fun xy => R xy.1 xy.2
                             ∨ on_stack ((la, lb) :: stack) xy.1 xy.2) l)
    as Hlist.
  { induction l as [|[x y] l IHl]; intros Hl.
    - exists (fun _ _ => False). split; [by intros ? ? []|constructor].
    - apply Forall_cons in Hl as [Hxy Hl].
      destruct (IH _ _ _ Hxy) as (R1 & Hc1 & H1).
      destruct (IHl Hl) as (R2 & Hc2 & H2).
      exists (fun x y => R1 x y ∨ R2 x y). split.
      + intros x' y' [Hr|Hr].
        * eapply same_shape_mono; [|exact (Hc1 _ _ Hr)].
          intros ? ? [?|?]; auto.
        * eapply same_shape_mono; [|exact (Hc2 _ _ Hr)].
          intros ? ? [?|?]; auto.
      + constructor; [destruct H1; auto|].
        apply (Forall_impl _ _ _ H2). intros ? [?|?]; auto. }
  (* the relation of the components, with the pair itself *)
  assert (∀ R', shape_closed h ((la, lb) :: stack) R' →
            same_shape h (fun x y => R' x y ∨ on_stack ((la, lb) :: stack) x y)
              (VObj la) (VObj lb) →
            ∃ R, shape_closed h stack R
                 ∧ (R (VObj la) (VObj lb) ∨ on_stack stack (VObj la) (VObj lb)))
    as Hclose.
  { intros R' Hc' Hab.
    assert (∀ x y, R' x y ∨ on_stack ((la, lb) :: stack) x y →
              (R' x y ∨ x = VObj la ∧ y = VObj lb) ∨ on_stack stack x y)
      as Hsub.
    { intros x y [Hr|(la' & lb' & -> & -> & Hin)]; [by left; left|].
      apply elem_of_cons in Hin as [[= -> ->]|Hin]; [by left; right|].
      right. by exists la', lb'. }
    exists (fun x y => R' x y ∨ x = VObj la ∧ y = VObj lb).
    split; [|by left; right].
    intros x y [Hr|[-> ->]].
    - eapply same_shape_mono; [|exact (Hc' _ _ Hr)]. exact Hsub.
    - eapply same_shape_mono; [|exact Hab]. exact Hsub. }
  destruct (h !! la) as [[pa|ea]|] eqn:Hla, (h !! lb) as [[pb|eb]|] eqn:Hlb;
    try done.
  + apply andb_true_iff in Heq as [[Hab Hba]%andb_true_iff Hall].
    pose proof (proj1 (forallb_has_own pb pa.*1) Hab) as Hab'.
    pose proof (proj1 (forallb_has_own pa pb.*1) Hba) as Hba'.
    pose proof (proj1 (forallb_keys (isEqual fuel h ((la, lb) :: stack))
                         pa pb pa.*1) Hall) as Hall'.
    destruct (Hlist ((fun k => (default VUndefined (lookup_prop k pa),
                                default VUndefined (lookup_prop k pb)))
                       <$> pa.*1)) as (R' & Hc' & Hrel).
    { apply Forall_fmap, Forall_forall. intros k Hk. by apply Hall'. }
    apply (Hclose R' Hc'). right. exists la, lb.
    split; [done|]. split; [done|]. rewrite Hla, Hlb.
    split; [by split; auto|]. intros k Hk.
    apply Forall_fmap in Hrel. by apply (proj1 (Forall_forall _ _) Hrel k).
  + apply andb_true_iff in Heq as [Hlen%bool_decide_eq_true Hall].
    apply forallb_zip in Hall; [|done].
    destruct (Hlist (zip ea eb)) as (R' & Hc' & Hrel).
    { clear -Hall. induction Hall; simpl; by constructor. }
    apply (Hclose R' Hc'). right. exists la, lb.
    split; [done|]. split; [done|]. rewrite Hla, Hlb.
    clear -Hrel Hlen. revert eb Hlen Hrel.
    induction ea as [|x ea IHe]; intros [|y eb] Hlen Hrel; simpl in *;
      try done.
    apply Forall_cons in Hrel as [Hxy Hrel].
    constructor; [done|]. apply IHe; [lia|done].
Qed.

(** No more distinct pairs of locations of the heap than its size
    squared. *)
Lemma stack_bound stack :
  NoDup stack →
  (∀ p, p ∈ stack → p.1 < length h ∧ p.2 < length h) →
  length stack ≤ length h * length h.
Proof.
intros Hnd Hin.
assert (length stack
        ≤ length (list_prod (seq 0 (length h)) (seq 0 (length h)))) as Hle.
{ apply submseteq_length, NoDup_submseteq; [done|].
  intros [la lb] Hp. apply list_elem_of_In, in_prod_iff.
  destruct (Hin _ Hp) as [Ha Hb]. simpl in *.
  split; apply in_seq; lia. }
by rewrite length_prod, !length_seq in Hle.
Qed.

(** With enough fuel for the pairs that are not yet on the stack, the
    comparison of two related values succeeds. *)
Lemma isEqual_complete R :
  (∀ x y, R x y → same_shape h R x y) →
  ∀ fuel stack a b,
    R a b →
    NoDup stack →
    (∀ p, p ∈ stack → p.1 < length h ∧ p.2 < length h) →
    length h * length h < fuel + length stack →
    isEqual fuel h stack a b = true.
Proof.
intros Hclosed. induction fuel as [|fuel IH];
  intros stack a b Hab Hnd Hin Hfuel.
- pose proof (stack_bound stack Hnd Hin). lia.
- simpl. destruct (Hclosed _ _ Hab) as [->|(la & lb & -> & -> & Hm)].
  { by rewrite bool_decide_eq_true_2. }
  apply orb_true_iff. right.
  destruct (decide ((la, lb) ∈ stack)) as [Hon|Hoff].
  { by rewrite bool_decide_eq_true_2. }
  apply orb_true_iff. right.
  assert (∀ x y, R x y → isEqual fuel h ((la, lb) :: stack) x y = true)
    as Hrec.
  { intros x y Hxy. apply IH; [done|by constructor| |simpl; lia].
    intros p [->|Hp]%elem_of_cons; [|by apply Hin]. simpl.
    destruct (h !! la) eqn:Hla, (h !! lb) eqn:Hlb; try done;
      try (by destruct o).
    split; by eapply lookup_lt_Some. }
  destruct (h !! la) as [[pa|ea]|], (h !! lb) as [[pb|eb]|]; try done.
  + destruct Hm as [Hkeys Hall].
    apply andb_true_iff. split; [apply andb_true_iff; split|].
    * apply (proj2 (forallb_has_own pb pa.*1)). intros k. apply Hkeys.
    * apply (proj2 (forallb_has_own pa pb.*1)). intros k. apply Hkeys.
    * apply (proj2 (forallb_keys (isEqual fuel h ((la, lb) :: stack))
                      pa pb pa.*1)).
      intros k Hk. by apply Hrec, Hall.
  + apply andb_true_iff. split.
    * apply bool_decide_eq_true. by eapply Forall2_length.
    * apply forallb_zip; [by eapply Forall2_length|].
      apply (Forall2_impl _ _ _ _ Hm). apply Hrec.
Qed.

(** [equals] decides structural equivalence. *)
Lemma equals_structural a b :
  equals h a b = true ↔ structurally_equivalent h a b.
Proof.
split.
- intros Heq. destruct (isEqual_sound _ _ _ _ Heq) as (R & Hc & Hab).
  assert (∀ x y, R x y ∨ on_stack [] x y → R x y) as Hsub.
  { intros x y [?|(? & ? & _ & _ & ?%elem_of_nil)]; done. }
  exists R. split; [|by apply Hsub].
  intros x y Hxy. eapply same_shape_mono; [|exact (Hc _ _ Hxy)]. exact Hsub.
- intros (R & Hclosed & Hab).
  apply (isEqual_complete R Hclosed); [done|constructor| |simpl; lia].
  by intros p ?%elem_of_nil.
Qed.

Lemma structurally_equivalent_sym a b :
  structurally_equivalent h a b → structurally_equivalent h b a.
Proof.
intros (R & Hclosed & Hab). exists (fun x y => R y x). split; [|done].
intros x y Hyx. destruct (Hclosed _ _ Hyx) as [->|(la & lb & -> & -> & Hm)];
  [by left|].
right. exists lb, la. split; [done|]. split; [done|].
destruct (h !! la) as [[pa|ea]|], (h !! lb) as [[pb|eb]|]; try done.
- destruct Hm as [Hkeys Hall]. split; [by intros k; symmetry|].
  intros k Hk. by apply Hall, Hkeys.
- by apply Forall2_flip.
Qed.

Lemma equals_sym a b : equals h a b = equals h b a.
Proof.
apply Bool.eq_iff_eq_true. rewrite !equals_structural.
split; apply structurally_equivalent_sym.
Qed.

(** A value that is not a reference to an object is equal to itself
    only. *)
Lemma isEqual_scalar fuel stack a b :
  (∀ l, a ≠ VObj l) ∨ (∀ l, b ≠ VObj l) →
  isEqual fuel h stack a b = bool_decide (a = b).
Proof.
intros Hscalar.
assert (match a, b with VObj _, VObj _ => False | _, _ => True end) as Hab.
{ destruct a, b; try done. by destruct Hscalar as [Ha|Hb]; [eapply Ha|eapply Hb]. }
destruct fuel; simpl; destruct a, b; try done; by rewrite orb_false_r.
Qed.

Lemma isEqual_typeof fuel stack a b :
  typeof a ≠ typeof b → isEqual fuel h stack a b = false.
Proof.
intros Hty. rewrite isEqual_scalar.
- apply bool_decide_eq_false. by intros ->.
- destruct a; try (by left); destruct b; by right.
Qed.

End DeepEquality.

(** C8: [equals] is reflexive and symmetric on all values of every heap
    and decides structural equivalence: it holds of two values exactly
    when they are structurally equivalent; it is identity on values that
    are not references to objects, it fails when the types differ and for
    a mapping and a sequence.  It holds of [{a: [1, {b: 2}]}] and a second,
    separately built [{a: [1, {b: 2}]}], it fails for [{a: 1}] and
    [{a: '1'}], and it holds of two cyclic values of the same shape. *)
Theorem equals_equivalence :
  (∀ h a, equals h a a = true)
  ∧ (∀ h a b, equals h a b = equals h b a)
  ∧ (∀ h a b, equals h a b = true ↔ structurally_equivalent h a b)
  ∧ (∀ h a b, (∀ l, a ≠ VObj l) ∨ (∀ l, b ≠ VObj l) →
              equals h a b = bool_decide (a = b))
  ∧ (∀ h a b, typeof a ≠ typeof b → equals h a b = false)
  ∧ (∀ h la lb pa eb,
       h !! la = Some (Plain pa) → h !! lb = Some (Arr eb) →
       equals h (VObj la) (VObj lb) = false)
  ∧ equals heap_equals (VObj 2) (VObj 5) = true
  ∧ equals heap_equals (VObj 6) (VObj 7) = false
  ∧ equals heap_cyclic (VObj 0) (VObj 1) = true.
Proof.
split; [intros h a; apply isEqual_refl|].
split; [intros h a b; apply equals_sym|].
split; [intros h a b; apply equals_structural|].
split; [intros h a b; apply isEqual_scalar|].
split; [intros h a b; apply isEqual_typeof|].
split; [|by repeat split].
intros h la lb pa eb Hla Hlb. unfold equals. simpl.
rewrite bool_decide_eq_false_2 by (intros [= ->]; congruence).
by rewrite Hla, Hlb.
Qed.

Lemma equals_equivalence_witness :
  typeof (num 1) ≠ typeof (VStr "1")
  ∧ equals heap_equals (num 1) (VStr "1") = false
  ∧ heap_equals !! 2 = Some (Plain [("a", VObj 1)])
  ∧ heap_equals !! 1 = Some (Arr [num 1; VObj 0])
  ∧ equals heap_equals (VObj 2) (VObj 1) = false.
Proof.
split; [discriminate|]. split.
{ apply (proj1 (proj2 (proj2 (proj2 (proj2 equals_equivalence))))).
  discriminate. }
split; [reflexivity|]. split; [reflexivity|].
apply (proj1 (proj2 (proj2 (proj2 (proj2 (proj2 equals_equivalence)))))
         heap_equals 2 1 [("a", VObj 1)] [num 1; VObj 0]); reflexivity.
Defined.

(** * Normalising a stateful entity: statements *)

Section ToStateFacts.

Variable call : fid → M value.

Lemma lookup_prop_zip (p : string) (ks : list string) :
  ∀ (vs : list value) v, lookup_prop p (zip ks vs) = Some v → v ∈ vs.
Proof.
  induction ks as [|k ks IH]; intros [|w vs] v; simpl; try done.
  destruct (String.eqb k p).
  - intros [= ->]. by left.
  - intros Hv. right. by apply (IH vs).
Qed.

Lemma chars_typeof s v : v ∈ chars s → typeof v = TString.
Proof.
  induction s as [|ch s IH]; simpl.
  - by intros ?%elem_of_nil.
  - intros [->|Hv]%elem_of_cons; [done|by apply IH].
Qed.

(** No own member of a string is a function. *)
Lemma string_member_typeof s p :
  typeof (default VUndefined (own_value (Arr (chars s)) p)) ≠ TFunction.
Proof.
  simpl. destruct (String.eqb p "length"); [done|].
  destruct (lookup_prop p _) as [v|] eqn:Hv; simpl; [|done].
  apply lookup_prop_zip, chars_typeof in Hv. by rewrite Hv.
Qed.

Lemma toState_object h l o :
  h !! l = Some o →
  toState call (VObj l) h =
    if bool_decide (typeof (get o "getState") = TFunction)
       && bool_decide (typeof (get o "dispatch") = TFunction)
    then invoke call (get o "getState") h
    else Some (VObj l, h).
Proof.
  intros Hl. unfold toState. simpl.
  unfold bind, get_member, bind, deref. rewrite Hl. simpl.
  case_bool_decide; simpl; [|done].
  rewrite Hl. simpl. by case_bool_decide.
Qed.

End ToStateFacts.

(** C7: [toState] of a function returns what calling it returns; of an
    object whose [getState] and [dispatch] are both functions, what calling
    that [getState] returns; of anything else, [null] and [undefined]
    included, the argument itself, the heap untouched. *)
Theorem toState_cases (call : fid → M value) (h : heap) :
  (∀ f, toState call (VFun f) h = call f h)
  ∧ (∀ l o g d,
       h !! l = Some o →
       get o "getState" = VFun g →
       get o "dispatch" = VFun d →
       toState call (VObj l) h = call g h)
  ∧ (∀ v,
       typeof v ≠ TFunction →
       ¬ is_store h v →
       (∀ l, v = VObj l → is_Some (h !! l)) →
       toState call v h = Some (v, h)).
Proof.
  split; [done|]. split.
  - intros l o g d Hl Hg Hd. rewrite (toState_object _ _ _ _ Hl).
    by rewrite Hg, Hd.
  - intros v Hfun Hstore Hwf.
    destruct v as [| |[|]|[|z]|s|l|f|[| |m|m]]; try done.
    + unfold toState. simpl. by destruct (negb (z =? 0)%Z).
    + unfold toState, bind, read_member, ret.
      destruct (truthy (VStr s)); [|done].
      rewrite (bool_decide_eq_false_2 (typeof (VStr s) = TFunction)) by done.
      by rewrite (bool_decide_eq_false_2 _ (string_member_typeof s _)).
    + destruct (Hwf l eq_refl) as [o Hl].
      rewrite (toState_object _ _ _ _ Hl).
      case_bool_decide as Hg; simpl; [|done].
      case_bool_decide as Hd; simpl; [|done].
      destruct Hstore. by exists l, o.
Qed.

Lemma toState_cases_witness :
  heap_store !! 0 = Some (Plain [("getState", VFun 7); ("dispatch", VFun 8)])
  ∧ toState call_example (VObj 0) heap_store = Some (VObj 1, heap_store)
  ∧ ¬ is_store heap_store (VObj 1)
  ∧ toState call_example (VObj 1) heap_store = Some (VObj 1, heap_store).
Proof.
  assert (¬ is_store heap_store (VObj 1)) as Hplain.
  { intros (l & o & [= <-] & [= <-] & Hg & _). discriminate Hg. }
  split; [reflexivity|]. split.
  { apply (proj1 (proj2 (toState_cases call_example heap_store))
             0 (Plain [("getState", VFun 7); ("dispatch", VFun 8)]) 7 8);
      reflexivity. }
  split; [exact Hplain|].
  apply (proj2 (proj2 (toState_cases call_example heap_store)) (VObj 1));
    [discriminate|exact Hplain|].
  intros l [= <-]. by eexists.
Defined.

(** C10: [toState] returns each of the falsy values [undefined], [null],
    [false], [0], [NaN] and the empty string as it is and leaves the heap
    as it is, whatever calling a function would do and whatever the heap
    holds: no function is called and no member is read. *)
Theorem toState_falsy (call : fid → M value) (h : heap) :
  toState call VUndefined h = Some (VUndefined, h)
  ∧ toState call VNull h = Some (VNull, h)
  ∧ toState call (VBool false) h = Some (VBool false, h)
  ∧ toState call (VNum (Finite 0)) h = Some (VNum (Finite 0), h)
  ∧ toState call (VNum NaN) h = Some (VNum NaN, h)
  ∧ toState call (VStr "") h = Some (VStr "", h).
Proof. by repeat split. Qed.


(** * What the updated state holds *)

Section ReadBack.

Implicit Types (h : heap) (l : loc) (c : object) (ps : props) (v : value).

(** After the loop every key of the change set, visited once, holds what
    one step from the state the loop started from gives it, and every
    other property is as it was. *)
Lemma final_props_key c ks : ∀ ps k,
  NoDup ks → k ∈ ks →
  lookup_prop k (final_props c ks ps)
  = binding_after (lookup_prop k ps) k (get c k).
Proof.
induction ks as [|k0 ks IH]; intros ps k Hnd Hk; simpl.
- by apply elem_of_nil in Hk.
- apply NoDup_cons in Hnd as [Hk0 Hnd].
  apply elem_of_cons in Hk as [->|Hk].
  + rewrite final_props_other by done. apply step_props_same.
  + rewrite (IH _ _ Hnd Hk). rewrite step_props_other; [done|].
    by intros ->.
Qed.

Lemma final_props_lookup c ks ps q :
  NoDup ks →
  lookup_prop q (final_props c ks ps)
  = if bool_decide (q ∈ ks) then binding_after (lookup_prop q ps) q (get c q)
    else lookup_prop q ps.
Proof.
intros Hnd. case_bool_decide as Hq.
- by apply final_props_key.
- by apply final_props_other.
Qed.

(** Reading a property after it has been set gives the value set, unless
    the value is [undefined], the property was an own one and the
    prototype has a member of that name, which the deletion uncovers. *)
Lemma binding_after_read (held : option value) p v :
  (v = VUndefined → is_Some held → from_object_prototype p = VUndefined) →
  default (from_object_prototype p) (binding_after held p v) = v.
Proof.
intros Hinh. unfold binding_after, strict_neq.
case_bool_decide as Hv.
- subst v. destruct held as [w|]; simpl.
  + by apply Hinh.
  + destruct (strict_eq (from_object_prototype p) VUndefined) eqn:Heq;
      simpl; [by apply strict_eq_true|done].
- destruct (strict_eq (default _ held) v) eqn:Heq; simpl; [|done].
  by apply strict_eq_true.
Qed.

(** [set] on a plain state always returns a state, plain again, that holds
    the properties after the step; the heap has only grown. *)
Lemma set_spec h l ps p v :
  h !! l = Some (Plain ps) →
  ∃ r new,
    set (VObj l) p v h = Some (VObj r, h ++ new)
    ∧ (h ++ new) !! r = Some (Plain (step_props ps p v))
    ∧ (unchanged_by (Plain ps) p v = true → r = l ∧ new = [])
    ∧ (unchanged_by (Plain ps) p v = false →
         r = length h ∧ new = [Plain (step_props ps p v)]).
Proof.
intros Hl. rewrite (set_eq _ _ _ _ _ Hl). unfold step_props.
pose proof (set_result_unchanged (Plain ps) p v) as Hun.
destruct (set_result (Plain ps) p v) as [ps'|].
- exists (length h), [Plain ps']. split; [done|].
  split; [apply lookup_fresh|]. split; [|done].
  intros Hu. apply Hun in Hu. discriminate Hu.
- exists l, []. rewrite app_nil_r. split; [done|]. split; [done|].
  split; [done|]. intros Hu. rewrite (proj1 Hun eq_refl) in Hu.
  discriminate Hu.
Qed.

Lemma clones_length c ks : ∀ ps, length (clones c ks ps) ≤ length ks.
Proof.
induction ks as [|k ks IH]; intros ps; simpl; [done|].
destruct (set_result (Plain ps) k (get c k)) as [ps'|]; simpl.
- specialize (IH ps'). lia.
- specialize (IH ps). lia.
Qed.

(** A key that differs from the state makes the loop clone. *)
Lemma changed_clones c ks : ∀ ps k,
  k ∈ ks → unchanged_by (Plain ps) k (get c k) = false →
  clones c ks ps ≠ [].
Proof.
induction ks as [|k0 ks IH]; intros ps k Hk Hch; simpl.
- by apply elem_of_nil in Hk.
- destruct (set_result (Plain ps) k0 (get c k0)) as [ps'|] eqn:Hres; [done|].
  apply elem_of_cons in Hk as [->|Hk].
  + apply set_result_unchanged in Hres. congruence.
  + by apply (IH ps k).
Qed.

(** When the keys are distinct and each differs from the state, each of
    them makes the loop clone. *)
Lemma all_changed_clones c ks : ∀ ps,
  NoDup ks →
  (∀ k, k ∈ ks → unchanged_by (Plain ps) k (get c k) = false) →
  length (clones c ks ps) = length ks.
Proof.
induction ks as [|k ks IH]; intros ps Hnd Hall; simpl; [done|].
apply NoDup_cons in Hnd as [Hk Hnd].
pose proof (step_props_other ps k) as Hother. unfold step_props in Hother.
destruct (set_result (Plain ps) k (get c k)) as [ps'|] eqn:Hres.
- simpl. f_equal. apply IH; [done|]. intros k' Hk'.
  rewrite (unchanged_by_lookup ps' ps).
  + apply Hall. by right.
  + specialize (Hother k' (get c k)). rewrite Hres in Hother.
    apply Hother. by intros ->.
- apply set_result_unchanged in Hres.
  rewrite Hall in Hres by by left. discriminate Hres.
Qed.

Lemma get_member_eq h l o p :
  h !! l = Some o → get_member (VObj l) p h = Some (get o p, h).
Proof. intros Hl. unfold get_member, bind, deref. by rewrite Hl. Qed.

Lemma hasOwnProperty_eq h l o p :
  h !! l = Some o → hasOwnProperty (VObj l) p h = Some (has_own o p, h).
Proof. intros Hl. unfold hasOwnProperty, bind, deref. by rewrite Hl. Qed.

End ReadBack.

(** * The updater: further statements *)

(** X1: with [copyOnWrite] false, [_set] on a plain state, for a property
    other than [__proto__] (whose assignment in place runs the inherited
    setter), returns the reference it was given and allocates nothing; no
    other object of the heap changes, and the state then holds exactly
    what the object returned by [set] for the same arguments holds. *)
Theorem _set_without_copy (h : heap) (l : loc) (ps : props) (p : string)
    (v : value) :
  h !! l = Some (Plain ps) →
  p ≠ "__proto__" →
  ∃ h1 r h2,
    _set (VObj l) p v false h = Some (VObj l, h1)
    ∧ length h1 = length h
    ∧ (∀ l', l' ≠ l → h1 !! l' = h !! l')
    ∧ set (VObj l) p v h = Some (VObj r, h2)
    ∧ h1 !! l = h2 !! r.
Proof.
intros Hl Hp.
rewrite (_set_in_place _ _ _ _ _ Hl Hp), (set_eq _ _ _ _ _ Hl).
destruct (set_result (Plain ps) p v) as [ps'|].
- exists (<[l := Plain ps']> h), (length h), (h ++ [Plain ps']).
  split; [done|]. split; [apply length_insert|].
  split; [by intros l' Hne; apply list_lookup_insert_ne|].
  split; [done|]. rewrite lookup_fresh.
  apply list_lookup_insert_eq. by apply lookup_lt_Some in Hl.
- exists h, l, h. by repeat split.
Qed.

Lemma _set_without_copy_witness :
  heap_two_changes !! 0 = Some (Plain [("a", num 1); ("b", num 2)])
  ∧ "a" ≠ "__proto__"
  ∧ ∃ h1 r h2,
      _set (VObj 0) "a" (num 3) false heap_two_changes = Some (VObj 0, h1)
      ∧ length h1 = length heap_two_changes
      ∧ (∀ l', l' ≠ 0 → h1 !! l' = heap_two_changes !! l')
      ∧ set (VObj 0) "a" (num 3) heap_two_changes = Some (VObj r, h2)
      ∧ h1 !! 0 = h2 !! r.
Proof.
split; [reflexivity|]. split; [discriminate|].
apply (_set_without_copy heap_two_changes 0 [("a", num 1); ("b", num 2)]
         "a" (num 3)); [reflexivity|discriminate].
Defined.

(** X2: reading [p] from the state that [set(s, p, v)] returns gives [v],
    for every [v], [NaN] and [undefined] included, except when [v] is
    [undefined], [s] has an own property [p] and the prototype has a
    member of that name, which the deletion uncovers. *)
Theorem set_read_back (h : heap) (l : loc) (ps : props) (p : string)
    (v : value) :
  h !! l = Some (Plain ps) →
  (v = VUndefined → has_own (Plain ps) p = true →
   from_object_prototype p = VUndefined) →
  ∃ r h',
    set (VObj l) p v h = Some (r, h')
    ∧ get_member r p h' = Some (v, h').
Proof.
intros Hl Hinh. destruct (set_spec h l ps p v Hl) as (r & new & Hset & Hr & _).
exists (VObj r), (h ++ new). split; [done|].
rewrite (get_member_eq _ _ _ _ Hr), get_plain, step_props_same.
rewrite binding_after_read; [done|].
intros Hv Hheld. apply Hinh; [done|]. by apply bool_decide_eq_true.
Qed.

Lemma set_read_back_witness :
  heap_inherited !! 0 = Some (Plain [("b", num 2)])
  ∧ ∃ r h',
      set (VObj 0) "toString" VUndefined heap_inherited = Some (r, h')
      ∧ get_member r "toString" h' = Some (VUndefined, h').
Proof.
split; [reflexivity|].
apply (set_read_back heap_inherited 0 [("b", num 2)] "toString" VUndefined);
  [reflexivity|]. intros _ Hown. discriminate Hown.
Defined.

(** X3: for every key [k] of the change set [c], reading [k] from the
    state that [assign(s, c)] returns gives the value [c] has for [k],
    except when that value is [undefined], [s] has an own property [k] and
    the prototype has a member of that name. *)
Theorem assign_read_back (h : heap) (ls lc : loc) (ps : props) (c : object) :
  h !! ls = Some (Plain ps) →
  h !! lc = Some c →
  ∃ r h',
    assign (VObj ls) (VObj lc) h = Some (r, h')
    ∧ ∀ k, k ∈ keys c →
        (get c k = VUndefined → has_own (Plain ps) k = true →
         from_object_prototype k = VUndefined) →
        get_member r k h' = Some (get c k, h').
Proof.
intros Hs Hc.
destruct (assign_loop_spec (keys c) h (VObj ls) ls lc c ps Hc Hs)
  as (r & Hrun & Hr & _ & _).
exists (VObj r), (h ++ (Plain <$> clones c (keys c) ps)).
split; [by rewrite (assign_unfold _ _ _ _ Hc)|]. intros k Hk Hinh.
rewrite (get_member_eq _ _ _ _ Hr), get_plain.
rewrite (final_props_key c _ ps k (NoDup_keys c) Hk).
rewrite binding_after_read; [done|].
intros Hv Hheld. apply Hinh; [done|]. by apply bool_decide_eq_true.
Qed.

Lemma assign_read_back_witness :
  heap_inherited !! 0 = Some (Plain [("b", num 2)])
  ∧ heap_inherited !! 1 = Some (Plain [("toString", VUndefined)])
  ∧ ∃ r h',
      assign (VObj 0) (VObj 1) heap_inherited = Some (r, h')
      ∧ ∀ k, k ∈ keys (Plain [("toString", VUndefined)]) →
          (get (Plain [("toString", VUndefined)]) k = VUndefined →
           has_own (Plain [("b", num 2)]) k = true →
           from_object_prototype k = VUndefined) →
          get_member r k h'
          = Some (get (Plain [("toString", VUndefined)]) k, h').
Proof.
split; [reflexivity|]. split; [reflexivity|].
apply (assign_read_back heap_inherited 0 1 [("b", num 2)]
         (Plain [("toString", VUndefined)])); reflexivity.
Defined.

(** X4: when some key of the change set [c] maps to a value that would
    change the state [s] (it is not identical to the value [s] has, or it
    is [undefined] and [s] has the property), [assign(s, c)] returns a
    reference to an object that did not exist before the call, so not
    [s]. *)
Theorem assign_change_is_fresh (h : heap) (ls lc : loc) (ps : props)
    (c : object) (k : string) :
  h !! ls = Some (Plain ps) →
  h !! lc = Some c →
  k ∈ keys c →
  unchanged_by (Plain ps) k (get c k) = false →
  ∃ r h',
    assign (VObj ls) (VObj lc) h = Some (VObj r, h')
    ∧ r ≠ ls
    ∧ h !! r = None
    ∧ is_Some (h' !! r).
Proof.
intros Hs Hc Hk Hch.
destruct (assign_loop_spec (keys c) h (VObj ls) ls lc c ps Hc Hs)
  as (r & Hrun & Hr & _ & Hfresh).
specialize (Hfresh (changed_clones c _ ps k Hk Hch)).
exists r, (h ++ (Plain <$> clones c (keys c) ps)).
split; [by rewrite (assign_unfold _ _ _ _ Hc)|]. split.
{ apply lookup_lt_Some in Hs. lia. }
split; [by apply lookup_ge_None|]. eexists. exact Hr.
Qed.

Lemma assign_change_is_fresh_witness :
  heap_two_changes !! 0 = Some (Plain [("a", num 1); ("b", num 2)])
  ∧ heap_two_changes !! 1 = Some (Plain [("a", num 10); ("b", num 20)])
  ∧ unchanged_by (Plain [("a", num 1); ("b", num 2)]) "b"
      (get (Plain [("a", num 10); ("b", num 20)]) "b") = false
  ∧ ∃ r h',
      assign (VObj 0) (VObj 1) heap_two_changes = Some (VObj r, h')
      ∧ r ≠ 0
      ∧ heap_two_changes !! r = None
      ∧ is_Some (h' !! r).
Proof.
split; [reflexivity|]. split; [reflexivity|]. split; [reflexivity|].
apply (assign_change_is_fresh heap_two_changes 0 1
         [("a", num 1); ("b", num 2)]
         (Plain [("a", num 10); ("b", num 20)]) "b"); [reflexivity..| |].
- change ("b" ∈ ["a"; "b"]). apply list_elem_of_In. right. by left.
- reflexivity.
Defined.

(** X5: [assign(s, c)] allocates at most one object per key of [c], and
    exactly one per key when the keys are distinct and each of them maps to
    a value that changes [s]. *)
Theorem assign_allocations (h : heap) (ls lc : loc) (ps : props)
    (c : object) :
  h !! ls = Some (Plain ps) →
  h !! lc = Some c →
  ∃ r h',
    assign (VObj ls) (VObj lc) h = Some (r, h')
    ∧ length h ≤ length h' ≤ length h + length (keys c)
    ∧ (NoDup (keys c) →
       (∀ k, k ∈ keys c → unchanged_by (Plain ps) k (get c k) = false) →
       length h' = length h + length (keys c)).
Proof.
intros Hs Hc.
destruct (assign_loop_spec (keys c) h (VObj ls) ls lc c ps Hc Hs)
  as (r & Hrun & _).
exists (VObj r), (h ++ (Plain <$> clones c (keys c) ps)).
split; [by rewrite (assign_unfold _ _ _ _ Hc)|].
rewrite length_app, length_fmap.
pose proof (clones_length c (keys c) ps) as Hle. split; [lia|].
intros Hnd Hall. by rewrite (all_changed_clones c _ ps Hnd Hall).
Qed.

Lemma assign_allocations_witness :
  heap_two_changes !! 0 = Some (Plain [("a", num 1); ("b", num 2)])
  ∧ heap_two_changes !! 1 = Some (Plain [("a", num 10); ("b", num 20)])
  ∧ ∃ r h',
      assign (VObj 0) (VObj 1) heap_two_changes = Some (r, h')
      ∧ length heap_two_changes ≤ length h'
        ≤ length heap_two_changes
          + length (keys (Plain [("a", num 10); ("b", num 20)]))
      ∧ (NoDup (keys (Plain [("a", num 10); ("b", num 20)])) →
         (∀ k, k ∈ keys (Plain [("a", num 10); ("b", num 20)]) →
               unchanged_by (Plain [("a", num 1); ("b", num 2)]) k
                 (get (Plain [("a", num 10); ("b", num 20)]) k) = false) →
         length h'
         = length heap_two_changes
           + length (keys (Plain [("a", num 10); ("b", num 20)]))).
Proof.
split; [reflexivity|]. split; [reflexivity|].
apply (assign_allocations heap_two_changes 0 1 [("a", num 1); ("b", num 2)]
         (Plain [("a", num 10); ("b", num 20)])); reflexivity.
Defined.

(** * Sequences of updates *)

Section Sequences.

Implicit Types (h : heap) (l : loc) (c : object) (ps : props) (v : value).

(** Two calls of [set] in a row, the second on the result of the first. *)
Lemma set_then_set h l ps p v q w :
  h !! l = Some (Plain ps) →
  ∃ r h',
    (let! t := set (VObj l) p v in set t q w) h = Some (VObj r, h')
    ∧ h' !! r = Some (Plain (step_props (step_props ps p v) q w)).
Proof.
intros Hl. destruct (set_spec h l ps p v Hl) as (r1 & new1 & Hset1 & Hr1 & _).
destruct (set_spec _ r1 _ q w Hr1) as (r2 & new2 & Hset2 & Hr2 & _).
exists r2, ((h ++ new1) ++ new2). unfold bind. by rewrite Hset1, Hset2.
Qed.

Lemma clones_nil c ks ps :
  clones c ks ps = []
  ↔ ∀ k, k ∈ ks → unchanged_by (Plain ps) k (get c k) = true.
Proof.
split; [|apply unchanged_no_clones].
intros Hnil k Hk. destruct (unchanged_by (Plain ps) k (get c k)) eqn:Hu; [done|].
by destruct (changed_clones c ks ps k Hk Hu).
Qed.

(** The state the loop returns is the one it started from exactly when it
    cloned nothing. *)
Lemma assign_result h ls lc ps c :
  h !! ls = Some (Plain ps) → h !! lc = Some c →
  ∃ r h',
    assign (VObj ls) (VObj lc) h = Some (VObj r, h')
    ∧ h' !! r = Some (Plain (final_props c (keys c) ps))
    ∧ (r = ls ↔ clones c (keys c) ps = [])
    ∧ (clones c (keys c) ps = [] → h' = h).
Proof.
intros Hs Hc.
destruct (assign_loop_spec (keys c) h (VObj ls) ls lc c ps Hc Hs)
  as (r & Hrun & Hr & Hsame & Hfresh).
exists r, (h ++ (Plain <$> clones c (keys c) ps)).
split; [by rewrite (assign_unfold _ _ _ _ Hc)|]. split; [done|]. split.
- split; [|done]. intros ->.
  destruct (clones c (keys c) ps) as [|x xs] eqn:Hcl; [done|].
  assert (length h ≤ ls) as Hle by by apply Hfresh.
  apply lookup_lt_Some in Hs. lia.
- intros ->. apply app_nil_r.
Qed.

End Sequences.

(** X6: two change sets that hold the same properties with the same values,
    in whatever order, take a state to states that hold the same
    properties with the same values; and [assign] returns the state itself
    for the one exactly when it does for the other. *)
Theorem assign_order_independent (h : heap) (ls l1 l2 : loc)
    (ps cs1 cs2 : props) :
  h !! ls = Some (Plain ps) →
  h !! l1 = Some (Plain cs1) →
  h !! l2 = Some (Plain cs2) →
  (∀ k, lookup_prop k cs1 = lookup_prop k cs2) →
  ∃ r1 h1 ps1 r2 h2 ps2,
    assign (VObj ls) (VObj l1) h = Some (VObj r1, h1)
    ∧ h1 !! r1 = Some (Plain ps1)
    ∧ assign (VObj ls) (VObj l2) h = Some (VObj r2, h2)
    ∧ h2 !! r2 = Some (Plain ps2)
    ∧ (∀ q, lookup_prop q ps1 = lookup_prop q ps2)
    ∧ (r1 = ls ↔ r2 = ls).
Proof.
intros Hs H1 H2 Hsame.
destruct (assign_result h ls l1 ps _ Hs H1) as (r1 & h1 & Ha1 & Hr1 & Hid1 & _).
destruct (assign_result h ls l2 ps _ Hs H2) as (r2 & h2 & Ha2 & Hr2 & Hid2 & _).
assert (∀ k, k ∈ keys (Plain cs1) ↔ k ∈ keys (Plain cs2)) as Hkeys.
{ intros k. rewrite !elem_of_keys. simpl.
  by rewrite <- !lookup_prop_keys, Hsame. }
assert (∀ k, get (Plain cs1) k = get (Plain cs2) k) as Hget.
{ intros k. by rewrite !get_plain, Hsame. }
exists r1, h1, (final_props (Plain cs1) (keys (Plain cs1)) ps),
  r2, h2, (final_props (Plain cs2) (keys (Plain cs2)) ps).
split; [done|]. split; [done|]. split; [done|]. split; [done|]. split.
- intros q. rewrite !final_props_lookup by apply NoDup_keys.
  rewrite (Hget q).
  by rewrite (bool_decide_ext (q ∈ keys (Plain cs1))
                (q ∈ keys (Plain cs2)) (Hkeys q)).
- rewrite Hid1, Hid2, !clones_nil.
  split; intros Hall k Hk; [rewrite <- Hget|rewrite Hget];
    apply Hall; by apply Hkeys.
Qed.

Lemma assign_order_independent_witness :
  heap_orders !! 0 = Some (Plain [("a", num 1); ("b", num 2)])
  ∧ heap_orders !! 1 = Some (Plain [("a", num 10); ("b", num 20)])
  ∧ heap_orders !! 2 = Some (Plain [("b", num 20); ("a", num 10)])
  ∧ ∃ r1 h1 ps1 r2 h2 ps2,
      assign (VObj 0) (VObj 1) heap_orders = Some (VObj r1, h1)
      ∧ h1 !! r1 = Some (Plain ps1)
      ∧ assign (VObj 0) (VObj 2) heap_orders = Some (VObj r2, h2)
      ∧ h2 !! r2 = Some (Plain ps2)
      ∧ (∀ q, lookup_prop q ps1 = lookup_prop q ps2)
      ∧ (r1 = 0 ↔ r2 = 0).
Proof.
split; [reflexivity|]. split; [reflexivity|]. split; [reflexivity|].
apply (assign_order_independent heap_orders 0 1 2
         [("a", num 1); ("b", num 2)]
         [("a", num 10); ("b", num 20)]
         [("b", num 20); ("a", num 10)]); [reflexivity..|].
intros k. unfold lookup_prop.
destruct (String.eqb "a" k) eqn:Ha, (String.eqb "b" k) eqn:Hb;
  try reflexivity.
apply String.eqb_eq in Ha, Hb. congruence.
Defined.

(** X7: setting two different properties one after the other gives, in
    either order, a state that holds the same properties with the same
    values. *)
Theorem set_commute (h : heap) (l : loc) (ps : props) (p q : string)
    (v w : value) :
  h !! l = Some (Plain ps) →
  p ≠ q →
  ∃ r1 h1 ps1 r2 h2 ps2,
    (let! t := set (VObj l) p v in set t q w) h = Some (VObj r1, h1)
    ∧ h1 !! r1 = Some (Plain ps1)
    ∧ (let! t := set (VObj l) q w in set t p v) h = Some (VObj r2, h2)
    ∧ h2 !! r2 = Some (Plain ps2)
    ∧ ∀ k, lookup_prop k ps1 = lookup_prop k ps2.
Proof.
intros Hl Hpq.
destruct (set_then_set h l ps p v q w Hl) as (r1 & h1 & Hrun1 & Hr1).
destruct (set_then_set h l ps q w p v Hl) as (r2 & h2 & Hrun2 & Hr2).
exists r1, h1, (step_props (step_props ps p v) q w),
  r2, h2, (step_props (step_props ps q w) p v).
split; [done|]. split; [done|]. split; [done|]. split; [done|].
intros k. rewrite !step_props_lookup.
repeat case_bool_decide; congruence.
Qed.

Lemma set_commute_witness :
  heap_two_changes !! 0 = Some (Plain [("a", num 1); ("b", num 2)])
  ∧ "c" ≠ "a"
  ∧ ∃ r1 h1 ps1 r2 h2 ps2,
      (let! t := set (VObj 0) "c" (num 3) in set t "a" VUndefined)
        heap_two_changes = Some (VObj r1, h1)
      ∧ h1 !! r1 = Some (Plain ps1)
      ∧ (let! t := set (VObj 0) "a" VUndefined in set t "c" (num 3))
          heap_two_changes = Some (VObj r2, h2)
      ∧ h2 !! r2 = Some (Plain ps2)
      ∧ ∀ k, lookup_prop k ps1 = lookup_prop k ps2.
Proof.
split; [reflexivity|]. split; [discriminate|].
apply (set_commute heap_two_changes 0 [("a", num 1); ("b", num 2)] "c" "a"
         (num 3) VUndefined); [reflexivity|discriminate].
Defined.

(** X8: for a value [v] other than [NaN], and other than [undefined] when
    the prototype has a member named [p], a second [set] of the same
    property to the same value returns the reference the first one
    returned and leaves the heap as the first one left it. *)
Theorem set_twice (h : heap) (l : loc) (ps : props) (p : string) (v : value) :
  h !! l = Some (Plain ps) →
  v ≠ VNum NaN →
  (v = VUndefined → from_object_prototype p = VUndefined) →
  ∃ r h',
    set (VObj l) p v h = Some (r, h')
    ∧ set r p v h' = Some (r, h').
Proof.
intros Hl Hv Hinh.
destruct (set_spec h l ps p v Hl) as (r & new & Hset & Hr & _).
destruct (set_spec _ r _ p v Hr) as (r' & new' & Hset' & _ & Hsame & _).
destruct (Hsame (step_props_settled ps p v Hv Hinh)) as [-> ->].
rewrite app_nil_r in Hset'. by exists (VObj r), (h ++ new).
Qed.

Lemma set_twice_witness :
  heap_two_changes !! 0 = Some (Plain [("a", num 1); ("b", num 2)])
  ∧ VUndefined ≠ VNum NaN
  ∧ from_object_prototype "a" = VUndefined
  ∧ ∃ r h',
      set (VObj 0) "a" VUndefined heap_two_changes = Some (r, h')
      ∧ set r "a" VUndefined h' = Some (r, h').
Proof.
split; [reflexivity|]. split; [discriminate|]. split; [reflexivity|].
apply (set_twice heap_two_changes 0 [("a", num 1); ("b", num 2)] "a"
         VUndefined); [reflexivity|discriminate|reflexivity].
Defined.

(** X9: [set(s, p, NaN)] never returns [s]: whatever [s] holds for [p],
    [NaN] included, it allocates a new object that holds [NaN] for [p] and
    returns it. *)
Theorem set_nan_clones (h : heap) (l : loc) (ps : props) (p : string) :
  h !! l = Some (Plain ps) →
  set (VObj l) p (VNum NaN) h
  = Some (VObj (length h), h ++ [Plain (put_prop p (VNum NaN) ps)])
  ∧ length h ≠ l
  ∧ lookup_prop p (put_prop p (VNum NaN) ps) = Some (VNum NaN).
Proof.
intros Hl. rewrite (set_eq _ _ _ _ _ Hl). unfold set_result, strict_neq.
assert (strict_eq (get (Plain ps) p) (VNum NaN) = false) as ->.
{ by destruct (get (Plain ps) p) as [| |?|[|?]|?|?|?|?]. }
simpl. split; [done|]. split; [|apply lookup_put_eq].
apply lookup_lt_Some in Hl. lia.
Qed.

Lemma set_nan_clones_witness :
  heap_nan !! 1 = Some (Plain [("a", VNum NaN)])
  ∧ set (VObj 1) "a" (VNum NaN) heap_nan
    = Some (VObj (length heap_nan),
            heap_nan ++ [Plain (put_prop "a" (VNum NaN) [("a", VNum NaN)])])
  ∧ length heap_nan ≠ 1
  ∧ lookup_prop "a" (put_prop "a" (VNum NaN) [("a", VNum NaN)])
    = Some (VNum NaN).
Proof.
split; [reflexivity|].
apply (set_nan_clones heap_nan 1 [("a", VNum NaN)] "a"). reflexivity.
Defined.

(** X10: [assign(s, s)] returns a state that holds the properties of [s]
    whose value is not [undefined], with their values, and no other; it
    returns [s] itself, with no allocation, when no value of [s] is
    [undefined] or [NaN]. *)
Theorem assign_self (h : heap) (ls : loc) (ps : props) :
  h !! ls = Some (Plain ps) →
  ∃ r h' ps',
    assign (VObj ls) (VObj ls) h = Some (VObj r, h')
    ∧ h' !! r = Some (Plain ps')
    ∧ (∀ q, lookup_prop q ps' = match lookup_prop q ps with
                                | Some VUndefined => None
                                | held => held
                                end)
    ∧ ((∀ k, k ∈ keys (Plain ps) →
             get (Plain ps) k ≠ VUndefined ∧ get (Plain ps) k ≠ VNum NaN) →
       r = ls ∧ h' = h).
Proof.
intros Hs.
destruct (assign_result h ls ls ps _ Hs Hs) as (r & h' & Ha & Hr & Hid & Hh).
exists r, h', (final_props (Plain ps) (keys (Plain ps)) ps).
split; [done|]. split; [done|]. split.
- intros q. rewrite final_props_lookup by apply NoDup_keys.
  case_bool_decide as Hq.
  + apply elem_of_keys, lookup_prop_keys in Hq as [w Hw]. simpl in Hw.
    rewrite get_plain, Hw. unfold binding_after, strict_neq. simpl.
    case_bool_decide as Hu; [by subst w|].
    destruct (strict_eq w w); by destruct w.
  + assert (lookup_prop q ps = None) as ->; [|done].
    apply eq_None_not_Some. intros Hsome. apply Hq.
    by apply elem_of_keys, lookup_prop_keys.
- intros Hval.
  assert (clones (Plain ps) (keys (Plain ps)) ps = []) as Hnil.
  { apply clones_nil. intros k Hk. destruct (Hval k Hk) as [Hu Hn].
    unfold unchanged_by. rewrite (bool_decide_eq_false_2 _ Hu). simpl.
    by apply strict_eq_refl. }
  split; [by apply Hid|by apply Hh].
Qed.

Lemma assign_self_witness :
  heap_self !! 0 = Some (Plain [("a", num 1); ("b", VUndefined)])
  ∧ ∃ r h' ps',
      assign (VObj 0) (VObj 0) heap_self = Some (VObj r, h')
      ∧ h' !! r = Some (Plain ps')
      ∧ (∀ q, lookup_prop q ps'
              = match lookup_prop q [("a", num 1); ("b", VUndefined)] with
                | Some VUndefined => None
                | held => held
                end)
      ∧ ((∀ k, k ∈ keys (Plain [("a", num 1); ("b", VUndefined)]) →
               get (Plain [("a", num 1); ("b", VUndefined)]) k ≠ VUndefined
               ∧ get (Plain [("a", num 1); ("b", VUndefined)]) k
                 ≠ VNum NaN) →
         r = 0 ∧ h' = heap_self).
Proof.
split; [reflexivity|].
apply (assign_self heap_self 0 [("a", num 1); ("b", VUndefined)]).
reflexivity.
Defined.

(** * Array states *)

Section Arrays.

Lemma index_key_inj i j : index_key i = index_key j → i = j.
Proof.
unfold index_key. intros E. apply Unsigned.to_uint_inj.
apply (f_equal NilEmpty.uint_of_string) in E.
rewrite !NilEmpty.usu in E. by injection E.
Qed.

(** An array holds its elements under their indices. *)
Lemma lookup_index_key (es : list value) : ∀ s i,
  lookup_prop (index_key (s + i))
    (zip (index_key <$> seq s (length es)) es) = es !! i.
Proof.
induction es as [|x es IH]; intros s i; simpl; [done|].
destruct (String.eqb_spec (index_key s) (index_key (s + i))) as [E|E].
- apply index_key_inj in E. by replace i with 0 by lia.
- destruct i as [|i]; [by rewrite Nat.add_0_r in E|].
  simpl. rewrite <- (IH (S s) i). f_equal. f_equal. lia.
Qed.

Lemma own_props_index (es : list value) i :
  lookup_prop (index_key i) (own_props (Arr es)) = es !! i.
Proof. apply (lookup_index_key es 0 i). Qed.

End Arrays.

(** X11: [set] on an array state with a value, other than [undefined],
    that is not identical to the one the array has for the property does
    not return an array: it returns a new plain object that holds the
    value for the property and every element of the array under its
    index, and the array is as it was. *)
Theorem set_array_state (h : heap) (l : loc) (es : list value) (p : string)
    (v : value) :
  h !! l = Some (Arr es) →
  v ≠ VUndefined →
  strict_eq (get (Arr es) p) v = false →
  ∃ r h' ps',
    set (VObj l) p v h = Some (VObj r, h')
    ∧ r ≠ l
    ∧ h !! r = None
    ∧ h' !! l = Some (Arr es)
    ∧ h' !! r = Some (Plain ps')
    ∧ lookup_prop p ps' = Some v
    ∧ ∀ i x, es !! i = Some x → index_key i ≠ p →
             lookup_prop (index_key i) ps' = Some x.
Proof.
intros Hl Hv Hne. rewrite (set_eq _ _ _ _ _ Hl). unfold set_result, strict_neq.
rewrite (bool_decide_eq_false_2 _ Hv), Hne. cbn [andb negb].
exists (length h), (h ++ [Plain (put_prop p v (own_props (Arr es)))]),
  (put_prop p v (own_props (Arr es))).
split; [done|]. split.
{ apply lookup_lt_Some in Hl. lia. }
split; [by apply lookup_ge_None|].
split; [by apply lookup_app_l_Some|]. split; [apply lookup_fresh|].
split; [apply lookup_put_eq|].
intros i x Hx Hi. rewrite lookup_put_ne by done.
by rewrite own_props_index.
Qed.

Lemma set_array_state_witness :
  heap_equals !! 1 = Some (Arr [num 1; VObj 0])
  ∧ num 9 ≠ VUndefined
  ∧ strict_eq (get (Arr [num 1; VObj 0]) "0") (num 9) = false
  ∧ ∃ r h' ps',
      set (VObj 1) "0" (num 9) heap_equals = Some (VObj r, h')
      ∧ r ≠ 1
      ∧ heap_equals !! r = None
      ∧ h' !! 1 = Some (Arr [num 1; VObj 0])
      ∧ h' !! r = Some (Plain ps')
      ∧ lookup_prop "0" ps' = Some (num 9)
      ∧ ∀ i x, [num 1; VObj 0] !! i = Some x → index_key i ≠ "0" →
               lookup_prop (index_key i) ps' = Some x.
Proof.
split; [reflexivity|]. split; [discriminate|]. split; [reflexivity|].
apply (set_array_state heap_equals 1 [num 1; VObj 0] "0" (num 9));
  [reflexivity|discriminate|reflexivity].
Defined.

Section Primitives.

Variable call : fid → M value.

Lemma toState_boolean h b : toState call (VBool b) h = Some (VBool b, h).
Proof. by destruct b. Qed.

Lemma toState_number h n : toState call (VNum n) h = Some (VNum n, h).
Proof.
destruct n as [|z]; [done|]. unfold toState. simpl.
by destruct (negb (z =? 0)%Z).
Qed.

Lemma toState_string h s : toState call (VStr s) h = Some (VStr s, h).
Proof.
unfold toState, bind, read_member, ret.
destruct (truthy (VStr s)); [|done].
rewrite (bool_decide_eq_false_2 (typeof (VStr s) = TFunction)) by done.
by rewrite (bool_decide_eq_false_2 _ (string_member_typeof s _)).
Qed.

End Primitives.

(** X12: [toState] returns every boolean, number and string as it is and
    leaves the heap as it is, whatever calling a function would do: a
    primitive is never called and never taken for a store, a string with
    its indices and its length included. *)
Theorem toState_primitive (call : fid → M value) (h : heap) :
  (∀ b, toState call (VBool b) h = Some (VBool b, h))
  ∧ (∀ n, toState call (VNum n) h = Some (VNum n, h))
  ∧ (∀ s, toState call (VStr s) h = Some (VStr s, h)).
Proof.
split; [apply toState_boolean|]. split; [apply toState_number|].
apply toState_string.
Qed.

(** X13: when [toState] returns, either the result is its argument and the
    heap is untouched, or the result and the heap are exactly those of one
    call, on the heap as it was, of a function that is the argument itself
    or the [getState] of an argument whose [dispatch] is a function too. *)
Theorem toState_inversion (call : fid → M value) (h h' : heap)
    (stateful r : value) :
  toState call stateful h = Some (r, h') →
  (r = stateful ∧ h' = h)
  ∨ ∃ f,
      call f h = Some (r, h')
      ∧ (stateful = VFun f
         ∨ ∃ l o, stateful = VObj l ∧ h !! l = Some o
                  ∧ get o "getState" = VFun f
                  ∧ typeof (get o "dispatch") = TFunction).
Proof.
destruct stateful as [| |b|n|s|l|f|[| |m|m]].
- intros [= <- <-]. by left.
- intros [= <- <-]. by left.
- rewrite toState_boolean. intros [= <- <-]. by left.
- rewrite toState_number. intros [= <- <-]. by left.
- rewrite toState_string. intros [= <- <-]. by left.
- destruct (h !! l) as [o|] eqn:Hl.
  + rewrite (toState_object _ _ _ _ Hl).
    case_bool_decide as Hg; simpl; [|by intros [= <- <-]; left].
    case_bool_decide as Hd; simpl; [|by intros [= <- <-]; left].
    destruct (get o "getState") as [| |?|?|?|?|g|?] eqn:Hget; try done.
    simpl. intros Hcall. right. exists g. split; [done|].
    right. by exists l, o.
  + unfold toState. simpl. unfold bind, get_member, bind, deref.
    by rewrite Hl.
- intros Hcall. right. exists f. split; [done|]. by left.
- intros [= <- <-]. by left.
- intros [= <- <-]. by left.
- intros [=].
- intros [=].
Qed.

Lemma toState_inversion_witness :
  toState call_example (VObj 0) heap_store = Some (VObj 1, heap_store)
  ∧ ((VObj 1 = VObj 0 ∧ heap_store = heap_store)
     ∨ ∃ f,
         call_example f heap_store = Some (VObj 1, heap_store)
         ∧ (VObj 0 = VFun f
            ∨ ∃ l o, VObj 0 = VObj l ∧ heap_store !! l = Some o
                     ∧ get o "getState" = VFun f
                     ∧ typeof (get o "dispatch") = TFunction)).
Proof.
split; [reflexivity|].
apply (toState_inversion call_example heap_store heap_store (VObj 0)
         (VObj 1)). reflexivity.
Defined.
